(** * pl_curve: Pareto-Lorenz curves and Gini coefficients

    A shallow embedding of [src/pl_curve.py] and the properties of its
    pipeline: column check, zero-row removal, per-sample sorting,
    cumulative relative abundance, truncation, cumulative rank
    proportion and the Gini table.

    Modelling conventions.
    - A pandas [DataFrame] is a list of column names and a list of rows;
      a row is its index label and one cell per column.
    - DataFrames are Python objects: they live in a store and the
      program handles references to them.  [sample['c'] = v] writes the
      object in place, [df.drop(l)] and [to_frame()] build a new one.
    - Cells are float64 in the program; here they are exact rationals
      ([Q]), so rounding is not modelled.  The values numpy can produce
      besides finite numbers (NaN and the infinities) are modelled where
      the program can produce them, in [float64]; signed zeros are not
      distinguished.
    - Python exceptions are results: [Raise e]. *)

From Stdlib Require Import QArith Qabs Lia Lqa Sorted.
From stdpp Require Import base list strings sorting.

Open Scope Q_scope.

(** ** Exceptions and results *)

Inductive exn : Type :=
  | TypeError
  | KeyError
  | ValueError
  | IndexError
  | ZeroDivisionError
  | SystemExit (code : Z).

Inductive res (A : Type) : Type :=
  | Val (a : A)
  | Raise (e : exn).
Arguments Val {A} a.
Arguments Raise {A} e.

#[global] Instance res_ret : MRet res := fun A a => Val a.
#[global] Instance res_bind : MBind res := fun A B f m =>
  match m with
  | Val a => f a
  | Raise e => Raise e
  end.
#[global] Instance res_fmap : FMap res := fun A B f m =>
  match m with
  | Val a => Val (f a)
  | Raise e => Raise e
  end.

(** ** Numbers *)

Definition Qlt_bool (a b : Q) : bool := negb (Qle_bool b a).

(** Python's builtin [sum]: left to right, starting from 0. *)
Definition py_sum (l : list Q) : Q := fold_left Qplus l 0.

(** Python's [a / b] on two ints. *)
Definition py_truediv (a b : Z) : res Q :=
  if (b =? 0)%Z then Raise ZeroDivisionError
  else Val (inject_Z a / inject_Z b).

(** What a numpy float64 computation can return. *)
Inductive float64 : Type :=
  | Finite (q : Q)
  | Inf (negative : bool)
  | NaN.

Definition Qneg_bool (q : Q) : bool := Qlt_bool q 0.

Definition np_div (a b : float64) : float64 :=
  match a, b with
  | NaN, _ | _, NaN => NaN
  | Inf _, Inf _ => NaN
  | Inf s, Finite y => Inf (xorb s (Qneg_bool y))
  | Finite _, Inf _ => Finite 0
  | Finite x, Finite y =>
      if Qeq_bool y 0
      then (if Qeq_bool x 0 then NaN else Inf (Qneg_bool x))
      else Finite (x / y)
  end.

Definition np_mul (a b : float64) : float64 :=
  match a, b with
  | NaN, _ | _, NaN => NaN
  | Inf s, Inf t => Inf (xorb s t)
  | Inf s, Finite y | Finite y, Inf s =>
      if Qeq_bool y 0 then NaN else Inf (xorb s (Qneg_bool y))
  | Finite x, Finite y => Finite (x * y)
  end.

(** [np.mean]: NaN on an empty array. *)
Definition np_mean (l : list Q) : float64 :=
  match l with
  | [] => NaN
  | _ => Finite (py_sum l / inject_Z (Z.of_nat (length l)))
  end.

(** ** DataFrames *)

Abbreviation Row := (string * list Q)%type.
Abbreviation Series := (list (string * Q)).

Record DataFrame : Type := mkDF {
  columns : list string;
  rows : list Row
}.

Definition index (df : DataFrame) : list string := map fst (rows df).
Definition len (df : DataFrame) : nat := length (rows df).

(** Every row has one cell per column. *)
Definition wf_df (df : DataFrame) : Prop :=
  Forall (fun r : Row => length (snd r) = length (columns df)) (rows df).

Definition str_eqb (a b : string) : bool := bool_decide (a = b).

(** Positions of the columns called [col]. *)
Fixpoint positions (col : string) (cols : list string) (p : nat) : list nat :=
  match cols with
  | [] => []
  | c :: cs =>
      if str_eqb c col then p :: positions col cs (S p)
      else positions col cs (S p)
  end.

Definition cell (p : nat) (r : Row) : Q := nth p (snd r) 0.

(** [df.loc[:, col]] where a Series is needed ([sum], [sort_values]):
    a missing name is a KeyError; a name carried by several columns
    selects a DataFrame, on which both uses raise a TypeError. *)
Definition loc_col (df : DataFrame) (col : string) : res Series :=
  match positions col (columns df) 0 with
  | [] => Raise KeyError
  | [p] => Val (map (fun r => (fst r, cell p r)) (rows df))
  | _ => Raise TypeError
  end.

Definition rows_at (label : string) (rs : list Row) : list Row :=
  filter (fun r => fst r = label) rs.

(** [sum(df.loc[label])]: one row gives the sum of its cells; several
    rows with that label give a DataFrame, whose iteration yields the
    column names, which [sum] cannot add to 0. *)
Definition sum_loc_row (df : DataFrame) (label : string) : res Q :=
  match rows_at label (rows df) with
  | [] => Raise KeyError
  | [r] => Val (py_sum (snd r))
  | _ => match columns df with
         | [] => Val 0
         | _ => Raise TypeError
         end
  end.

(** [df.drop(label)]: a new frame without the rows labelled [label]. *)
Definition drop (label : string) (df : DataFrame) : res DataFrame :=
  match rows_at label (rows df) with
  | [] => Raise KeyError
  | _ => Val (mkDF (columns df) (filter (fun r => fst r <> label) (rows df)))
  end.

(** [df[name] = vals]: overwrites the columns called [name] when there
    are some, appends a column otherwise. *)
Fixpoint set_cells (name : string) (cols : list string) (v : Q)
    (cells : list Q) : list Q :=
  match cols, cells with
  | c :: cs, x :: xs =>
      (if str_eqb c name then v else x) :: set_cells name cs v xs
  | _, _ => cells
  end.

Definition setitem (name : string) (vals : list Q) (df : DataFrame)
    : res DataFrame :=
  if negb (length vals =? len df)%nat then Raise ValueError
  else match positions name (columns df) 0 with
       | [] =>
           Val (mkDF (columns df ++ [name])
                  (zip_with (fun (r : Row) v => (fst r, snd r ++ [v]))
                     (rows df) vals))
       | _ =>
           Val (mkDF (columns df)
                  (zip_with
                     (fun (r : Row) v =>
                        (fst r, set_cells name (columns df) v (snd r)))
                     (rows df) vals))
       end.

(** [df.columns[0]] *)
Definition title_of (df : DataFrame) : res string :=
  match columns df with
  | [] => Raise IndexError
  | t :: _ => Val t
  end.

(** [row[0]] of [sample.iloc[i]] *)
Definition iloc0 (r : Row) : res Q :=
  match snd r with
  | [] => Raise IndexError
  | x :: _ => Val x
  end.

(** [col.iloc[:, 0]].values *)
Definition iloc_col0 (df : DataFrame) : res (list Q) :=
  match columns df with
  | [] => Raise IndexError
  | _ => Val (map (cell 0) (rows df))
  end.

(** [df.loc[:, name]] as plotted: the values of every column called
    [name], a KeyError when there is none. *)
Definition select (name : string) (df : DataFrame) : res (list (list Q)) :=
  match positions name (columns df) 0 with
  | [] => Raise KeyError
  | ps => Val (map (fun p => map (cell p) (rows df)) ps)
  end.

(** [col[name][label]]: a number when one column and one row match. *)
Inductive looked_up : Type :=
  | Scalar (q : Q)
  | NonScalar.

Definition lookup_cell (name label : string) (df : DataFrame)
    : res looked_up :=
  match positions name (columns df) 0 with
  | [] => Raise KeyError
  | [p] =>
      match rows_at label (rows df) with
      | [] => Raise KeyError
      | [r] => Val (Scalar (cell p r))
      | _ => Val NonScalar
      end
  | _ => if str_eqb label name then Val NonScalar else Raise KeyError
  end.

(** The truth value of [val > q]: ambiguous unless [val] is a number. *)
Definition gt_truth (v : looked_up) (q : Q) : res bool :=
  match v with
  | Scalar x => Val (Qlt_bool q x)
  | NonScalar => Raise ValueError
  end.

(** ** The store of DataFrame objects *)

Definition ref : Type := nat.
Abbreviation heap := (list DataFrame).

Definition M (A : Type) : Type := heap -> res (A * heap).

#[global] Instance M_ret : MRet M := fun A a h => Val (a, h).
#[global] Instance M_bind : MBind M := fun A B f m h =>
  match m h with
  | Val (a, h') => f a h'
  | Raise e => Raise e
  end.

Definition lift {A} (r : res A) : M A := fun h =>
  match r with
  | Val a => Val (a, h)
  | Raise e => Raise e
  end.

Definition alloc (df : DataFrame) : M ref := fun h =>
  Val (length h, h ++ [df]).

(** Reading through a reference; references handed out by [alloc]
    always point into the store. *)
Definition deref (r : ref) : M DataFrame := fun h =>
  match h !! r with
  | Some df => Val (df, h)
  | None => Raise KeyError
  end.

Definition write (r : ref) (df : DataFrame) : M unit := fun h =>
  Val (tt, <[r := df]> h).

Fixpoint deref_all (rs : list ref) : M (list DataFrame) :=
  match rs with
  | [] => mret []
  | r :: rest =>
      df ← deref r;
      dfs ← deref_all rest;
      mret (df :: dfs)
  end.

(** The loop shared by the per-sample stages:
    [for sample in samples: ...; samples2.append(x)]. *)
Fixpoint for_samples (body : ref -> M ref) (samples : list ref)
    (samples2 : list ref) : M (list ref) :=
  match samples with
  | [] => mret samples2
  | sample :: rest =>
      x ← body sample;
      for_samples body rest (samples2 ++ [x])
  end.

(** ** The program *)

Definition abs_diffs (x : list Q) : list Q :=
  flat_map (fun a => map (fun b => Qabs (a - b)) x) x.

Definition calculate_gini (x : list Q) : float64 :=
  let mad := np_mean (abs_diffs x) in
  let rmad := np_div mad (np_mean x) in
  let g := np_mul (Finite 0.5) rmad in
  g.

Fixpoint check_columns_loop (df : DataFrame) (cols : list string)
    : res bool :=
  match cols with
  | [] => Val true
  | col :: rest =>
      s ← loc_col df col;
      let total := py_sum (map snd s) in
      if Qlt_bool total 0.9999 || Qlt_bool 1.0001 total
      then Val false
      else check_columns_loop df rest
  end.

Definition check_columns (df : ref) : M bool :=
  d ← deref df;
  lift (check_columns_loop d (columns d)).

(** The loop of [remove_zeros]; [fresh] tells whether [df] has been
    rebound to the result of a [drop]. *)
Fixpoint remove_zeros_loop (labels : list string) (fresh : bool)
    (df : DataFrame) : res (bool * DataFrame) :=
  match labels with
  | [] => Val (fresh, df)
  | row_index :: rest =>
      total ← sum_loc_row df row_index;
      if Qeq_bool total 0
      then df' ← drop row_index df; remove_zeros_loop rest true df'
      else remove_zeros_loop rest fresh df
  end.

(** A variable that starts as the caller's object and is rebound to
    the result of each [drop].  Each [drop] makes a new object; only the
    last is reachable, so it alone is allocated.  Without any drop the
    caller's reference is the result. *)
Definition rebound (loop : DataFrame -> res (bool * DataFrame)) (r : ref)
    : M ref :=
  d ← deref r;
  '(fresh, d') ← lift (loop d);
  if (fresh : bool) then alloc d' else mret r.

Definition remove_zeros (df : ref) : M ref :=
  rebound (fun d => remove_zeros_loop (index d) false d) df.

Definition to_frame (col : string) (s : Series) : DataFrame :=
  mkDF [col] (map (fun lv => (fst lv, [snd lv])) s).

(** [sample.iloc[i]] *)
Definition iloc (df : DataFrame) (i : nat) : res Row :=
  match rows df !! i with
  | Some r => Val r
  | None => Raise IndexError
  end.

(** [cum_rel_abund[j]] on a Python list, for [0 <= j] *)
Definition list_get (l : list Q) (j : nat) : res Q :=
  match l !! j with
  | Some x => Val x
  | None => Raise IndexError
  end.

(** [for i in range(0, len(sample))] of
    [calculate_cumulative_relative_abundance] *)
Fixpoint cum_rel_abund_loop (sample : DataFrame) (range : list nat)
    (cum_rel_abund : list Q) : res (list Q) :=
  match range with
  | [] => Val cum_rel_abund
  | i :: rest =>
      if (0 <? i)%nat then
        r ← iloc sample i;
        x ← iloc0 r;
        prev ← list_get cum_rel_abund (i - 1);
        cum_rel_abund_loop sample rest (cum_rel_abund ++ [x + prev])
      else
        r ← iloc sample i;
        x ← iloc0 r;
        cum_rel_abund_loop sample rest (cum_rel_abund ++ [x])
  end.

Definition add_cum_rel_abund (sample : DataFrame) : res DataFrame :=
  cum_rel_abund ← cum_rel_abund_loop sample (seq 0 (len sample)) [];
  setitem "Cum Rel Abund" cum_rel_abund sample.

(** The body of an in-place stage: the object behind [sample] is
    overwritten and the same reference is appended to [samples2]. *)
Definition in_place (f : DataFrame -> res DataFrame) (sample : ref) : M ref :=
  d ← deref sample;
  d' ← lift (f d);
  _ ← write sample d';
  mret sample.

Definition calculate_cumulative_relative_abundance (samples : list ref)
    : M (list ref) :=
  for_samples (in_place add_cum_rel_abund) samples [].

(** [for i in range(0, len(sample))] of [calculate_cumulative_prop_trf] *)
Fixpoint cum_prop_trfs_loop (sample : DataFrame) (range : list nat)
    (cum_prop_trfs : list Q) : res (list Q) :=
  match range with
  | [] => Val cum_prop_trfs
  | i :: rest =>
      v ← py_truediv (Z.of_nat i + 1) (Z.of_nat (len sample));
      cum_prop_trfs_loop sample rest (cum_prop_trfs ++ [v])
  end.

Definition add_cum_prop_trfs (sample : DataFrame) : res DataFrame :=
  cum_prop_trfs ← cum_prop_trfs_loop sample (seq 0 (len sample)) [];
  setitem "Cum Prop TRFs" cum_prop_trfs sample.

Definition calculate_cumulative_prop_trf (samples : list ref)
    : M (list ref) :=
  for_samples (in_place add_cum_prop_trfs) samples [].

(** [for row_index in col.index] of
    [remove_cumulative_abundance_over_one]; [fresh] tells whether
    [new_frame] has been rebound to the result of a [drop]. *)
Fixpoint over_one_loop (col : DataFrame) (labels : list string)
    (found fresh : bool) (new_frame : DataFrame) : res (bool * DataFrame) :=
  match labels with
  | [] => Val (fresh, new_frame)
  | row_index :: rest =>
      val ← lookup_cell "Cum Rel Abund" row_index col;
      if found then
        new_frame' ← drop row_index new_frame;
        over_one_loop col rest found true new_frame'
      else
        over ← gt_truth val 0.999999;
        if (over : bool) then over_one_loop col rest true fresh new_frame
        else over_one_loop col rest found fresh new_frame
  end.

Definition over_one (col : DataFrame) : res (bool * DataFrame) :=
  over_one_loop col (index col) false false col.

(** [new_frame = col] aliases the caller's object; it is replaced by a
    new object as soon as one row is dropped. *)
Definition remove_cumulative_abundance_over_one (samples : list ref)
    : M (list ref) :=
  for_samples (rebound over_one) samples [].

(** What [make_graph] plots for one sample: label, x values, y values. *)
Definition curve : Type := string * list (list Q) * list (list Q).

Fixpoint make_graph_loop (samples : list DataFrame) (plot : list curve)
    : res (list curve) :=
  match samples with
  | [] => Val plot
  | col :: rest =>
      title ← title_of col;
      xs ← select "Cum Prop TRFs" col;
      ys ← select "Cum Rel Abund" col;
      make_graph_loop rest (plot ++ [(title, xs, ys)])
  end.

Definition make_graph (samples : list ref) : M (list curve) :=
  cols ← deref_all samples;
  lift (make_graph_loop cols []).

Record GiniRow : Type := mkGini {
  Gini : float64;
  Corrected_Gini : float64;
  n : float64
}.

Definition GiniTable : Type := list (string * GiniRow).

Fixpoint titles_loop (samples : list DataFrame) (titles : list string)
    : res (list string) :=
  match samples with
  | [] => Val titles
  | col :: rest =>
      t ← title_of col;
      titles_loop rest (titles ++ [t])
  end.

(** [pd.DataFrame(columns=[...], index=titles)]: every cell is NaN. *)
Definition empty_gini_df (titles : list string) : GiniTable :=
  map (fun t => (t, mkGini NaN NaN NaN)) titles.

(** [gini_df.loc[title, ...] = ...] for the three cells: every row
    labelled [title] is written. *)
Definition set_gini (title : string) (g : GiniRow) (gini_df : GiniTable)
    : GiniTable :=
  map (fun tr : string * GiniRow =>
         if str_eqb (fst tr) title then (fst tr, g) else tr) gini_df.

Fixpoint gini_loop (samples : list DataFrame) (gini_df : GiniTable)
    : res GiniTable :=
  match samples with
  | [] => Val gini_df
  | col :: rest =>
      title ← title_of col;
      x ← iloc_col0 col;
      let gini := calculate_gini x in
      ratio ← py_truediv (Z.of_nat (len col)) (Z.of_nat (len col) - 1);
      let corrected_gini := np_mul gini (Finite ratio) in
      gini_loop rest
        (set_gini title
           (mkGini gini corrected_gini (Finite (inject_Z (Z.of_nat (len col)))))
           gini_df)
  end.

Definition make_gini_df (samples : list DataFrame) : res GiniTable :=
  titles ← titles_loop samples [];
  gini_loop samples (empty_gini_df titles).

(** The table that [make_gini_file] prints and saves. *)
Definition make_gini_file (samples : list ref) : M GiniTable :=
  cols ← deref_all samples;
  lift (make_gini_df cols).

Section Program.

(** [Series.sort_values(ascending=False)] is pandas code, called with
    the default [kind='quicksort']. *)
Variable sort_values : Series -> Series.

Fixpoint sort_bins_loop (df : DataFrame) (cols : list string)
    (samples : list ref) : M (list ref) :=
  match cols with
  | [] => mret samples
  | col :: rest =>
      s ← lift (loc_col df col);
      data ← alloc (to_frame col (sort_values s));
      sort_bins_loop df rest (samples ++ [data])
  end.

Definition sort_bins (df : ref) : M (list ref) :=
  d ← deref df;
  sort_bins_loop d (columns d) [].

(** [run]: [input] is the table read by [pd.read_csv]; the result is
    the returned [samples], what was plotted and the Gini table. *)
Definition run (input : DataFrame)
    : M (list ref * list curve * GiniTable) :=
  df ← alloc input;
  ok ← check_columns df;
  if (ok : bool) then
    df ← remove_zeros df;
    samples ← sort_bins df;
    samples ← calculate_cumulative_relative_abundance samples;
    samples ← remove_cumulative_abundance_over_one samples;
    samples ← calculate_cumulative_prop_trf samples;
    plot ← make_graph samples;
    gini_df ← make_gini_file samples;
    mret (samples, plot, gini_df)
  else
    lift (Raise (SystemExit 1)).

End Program.

(** The returned samples, read back from the store. *)
Definition frames_of (h : heap) (samples : list ref) : res (list DataFrame) :=
  match mapM (fun r : ref => h !! r) samples with
  | Some dfs => Val dfs
  | None => Raise KeyError
  end.

Definition run_output (sort_values : Series -> Series) (input : DataFrame)
    (h : heap) : res (list DataFrame * list curve * GiniTable) :=
  match run sort_values input h with
  | Val ((samples, plot, gini_df), h') =>
      dfs ← frames_of h' samples;
      mret (dfs, plot, gini_df)
  | Raise e => Raise e
  end.

(** ** The pipeline on values

    The same stages with the store left out: what each stage computes
    from the frames it is given.  [run_output_value] relates [run] to
    it. *)

Definition pruned (input : DataFrame) : res DataFrame :=
  snd <$> remove_zeros_loop (index input) false input.

Definition ranked (sort_values : Series -> Series) (df : DataFrame)
    : res (list DataFrame) :=
  mapM (fun col => to_frame col ∘ sort_values <$> loc_col df col)
    (columns df).

Definition truncated (col : DataFrame) : res DataFrame :=
  snd <$> over_one col.

(** The per-sample tables after ranking, accumulation and truncation. *)
Definition truncated_curves (sort_values : Series -> Series)
    (input : DataFrame) : res (list DataFrame) :=
  df ← pruned input;
  samples ← ranked sort_values df;
  samples ← mapM add_cum_rel_abund samples;
  mapM truncated samples.

Definition run_value (sort_values : Series -> Series) (input : DataFrame)
    : res (list DataFrame * list curve * GiniTable) :=
  ok ← check_columns_loop input (columns input);
  if (ok : bool) then
    samples ← truncated_curves sort_values input;
    samples ← mapM add_cum_prop_trfs samples;
    plot ← make_graph_loop samples [];
    gini_df ← make_gini_df samples;
    mret (samples, plot, gini_df)
  else Raise (SystemExit 1).

(** ** Sorting

    What the pandas documentation promises of
    [sort_values(ascending=False)]: the same entries, in non-increasing
    order of value.  Stability is promised for [kind='mergesort'] and
    [kind='stable'] only. *)

Definition desc (a b : string * Q) : Prop := snd b <= snd a.

Definition sort_contract (sort_values : Series -> Series) : Prop :=
  forall s, Permutation (sort_values s) s /\ Sorted desc (sort_values s).

Section InsertionSort.
Context {A : Type} (leb : A -> A -> bool).

Fixpoint insert_by (x : A) (l : list A) : list A :=
  match l with
  | [] => [x]
  | y :: l' => if leb x y then x :: l else y :: insert_by x l'
  end.

Fixpoint isort_by (l : list A) : list A :=
  match l with
  | [] => []
  | x :: l' => insert_by x (isort_by l')
  end.
End InsertionSort.

Definition value_geb (a b : string * Q) : bool := Qle_bool (snd b) (snd a).
Definition value_leb (a b : string * Q) : bool := Qle_bool (snd a) (snd b).

(** A stable descending sort: equal values keep their order. *)
Definition stable_sort_values (s : Series) : Series := isort_by value_geb s.

(** Descending order obtained as "argsort ascending, then reverse":
    equal values come out in reverse order. *)
Definition reversed_sort_values (s : Series) : Series :=
  reverse (isort_by value_leb s).

(** The properties, as predicates. *)

(** Entries of equal value come in [out] in the order they have in
    [s]. *)
Definition keeps_tie_order (s out : Series) : Prop :=
  forall i j a b,
    (i < j)%nat -> out !! i = Some a -> out !! j = Some b ->
    snd a == snd b ->
    exists i' j', (i' < j')%nat /\ s !! i' = Some a /\ s !! j' = Some b.

(** [f] is the single-column table of sample [col] of [d], its
    entries in non-increasing order of abundance. *)
Definition ranking_of (d : DataFrame) (col : string) (f : DataFrame) : Prop :=
  exists s out,
    loc_col d col = Val s /\ f = to_frame col out /\
    Permutation out s /\ Sorted desc out.

(** The same, with the stability the specification asks for. *)
Definition stable_ranking_of (d : DataFrame) (col : string) (f : DataFrame)
    : Prop :=
  exists s out,
    loc_col d col = Val s /\ f = to_frame col out /\
    Permutation out s /\ Sorted desc out /\ keeps_tie_order s out.

(** The rows kept by the truncation: up to and including the first one
    whose cumulative relative abundance exceeds 0.999999. *)
Fixpoint keep_through_first (over : Row -> bool) (rs : list Row) : list Row :=
  match rs with
  | [] => []
  | r :: rest => if over r then [r] else r :: keep_through_first over rest
  end.

(** The cells of the column at position [p]. *)
Definition column_cells (p : nat) (df : DataFrame) : list Q :=
  map (cell p) (rows df).

Definition in_tolerance (total : Q) : Prop :=
  0.9999 <= total /\ total <= 1.0001.

Definition all_zero (r : Row) : bool :=
  forallb (fun x => Qeq_bool x 0) (snd r).

Definition nonnegative (df : DataFrame) : Prop :=
  Forall (fun r : Row => Forall (fun x => 0 <= x) (snd r)) (rows df).

Definition over_threshold (p : nat) (r : Row) : bool :=
  Qlt_bool 0.999999 (cell p r).

(** [d'] is [d] cut after the first row whose cell in column [p]
    exceeds 0.999999, or [d] itself when there is no such row. *)
Definition truncation_of (p : nat) (d d' : DataFrame) : Prop :=
  columns d' = columns d /\
  ((exists k r,
      rows d !! k = Some r /\
      0.999999 < cell p r /\
      (forall j r', (j < k)%nat -> rows d !! j = Some r' ->
                    ~ 0.999999 < cell p r') /\
      rows d' = take (S k) (rows d))
   \/
   ((forall r, r ∈ rows d -> ~ 0.999999 < cell p r) /\ d' = d)).

(** [cum] follows the recurrence of the cumulative relative
    abundance over the first column of [rs]. *)
Definition running_sum (rs : list Row) (cum : list Q) : Prop :=
  forall i r, rs !! i = Some r ->
    match i with
    | O => cum !! 0%nat = Some (cell 0 r)
    | S j => exists prev, cum !! j = Some prev /\
                          cum !! i = Some (cell 0 r + prev)
    end.

(** [d'] is [d] with one more column, "Cum Rel Abund", holding the
    running sum of the first column. *)
Definition cum_rel_abund_added (d d' : DataFrame) : Prop :=
  columns d' = columns d ++ ["Cum Rel Abund"] /\
  exists cum,
    length cum = len d /\
    running_sum (rows d) cum /\
    rows d' = zip_with (fun (r : Row) c => (fst r, snd r ++ [c])) (rows d) cum.

(** The rank proportion at 0-based position [i] of a sequence of
    length [m]: [(i + 1) / m]. *)
Definition rank_proportion (m i : nat) : Q :=
  inject_Z (Z.of_nat i + 1) / inject_Z (Z.of_nat m).

(** [df] has the rows of the truncated table [t] and a column
    "Cum Prop TRFs" that holds [(i + 1) / len t] at position [i], hence
    1 in its last row. *)
Definition rank_proportion_added (t df : DataFrame) : Prop :=
  index df = index t /\
  exists p,
    columns df !! p = Some "Cum Prop TRFs" /\
    (forall i r, rows df !! i = Some r ->
                 cell p r = rank_proportion (len t) i) /\
    (forall r, last (rows df) = Some r -> cell p r == 1).

(** [col] is the first column name of [df]. *)
Definition titled (col : string) (df : DataFrame) : Prop :=
  exists tl, columns df = col :: tl.

(** The row of the Gini table computed from the table [col]: the
    coefficient of its first column, the correction with
    [n = len col], and [n]. *)
Definition score (col : DataFrame) : res GiniRow :=
  ratio ← py_truediv (Z.of_nat (len col)) (Z.of_nat (len col) - 1);
  let gini := calculate_gini (column_cells 0 col) in
  mret (mkGini gini (np_mul gini (Finite ratio))
          (Finite (inject_Z (Z.of_nat (len col))))).

(** The Gini table has, under the sample's name, the row computed
    from the returned table [df], whose rows are those of the
    truncated curve [t]. *)
Definition scored_on_truncated (gini_df : GiniTable) (t df : DataFrame)
    : Prop :=
  index df = index t /\
  exists title g,
    title_of df = Val title /\ score df = Val g /\ (title, g) ∈ gini_df.

(** The wording of the specification: the Gini table has, for every
    sample, the coefficient of the whole ranked column and the number
    of bins of the pruned table. *)
Definition scored_on_ranked (sort_values : Series -> Series)
    (input : DataFrame) (gini_df : GiniTable) : Prop :=
  exists d fs,
    pruned input = Val d /\
    ranked sort_values d = Val fs /\
    Forall (fun f => exists title g,
              title_of f = Val title /\ (title, g) ∈ gini_df /\
              Gini g = calculate_gini (column_cells 0 f) /\
              n g = Finite (inject_Z (Z.of_nat (len d)))) fs.

(** [d'] carries, in the column appended to those of [d], the sums of
    the leading values of the first column of [d]. *)
Definition partial_sums_added (d d' : DataFrame) : Prop :=
  len d' = len d /\
  forall i r', rows d' !! i = Some r' ->
    cell (length (columns d)) r' == py_sum (take (S i) (column_cells 0 d)).

(** The appended column of [d'] never decreases from a row to the
    next. *)
Definition appended_non_decreasing (d d' : DataFrame) : Prop :=
  forall i a b, rows d' !! i = Some a -> rows d' !! S i = Some b ->
    cell (length (columns d)) a <= cell (length (columns d)) b.

(** [c] is the curve plotted for [d]. *)
Definition curve_of (d : DataFrame) (c : curve) : Prop :=
  title_of d = Val (fst (fst c)) /\
  select "Cum Prop TRFs" d = Val (snd (fst c)) /\
  select "Cum Rel Abund" d = Val (snd c).

(** The row of the Gini table computed from the values [x]: their
    coefficient, the correction with [n = length x], and [n]. *)
Definition score_values (x : list Q) : res GiniRow :=
  ratio ← py_truediv (Z.of_nat (length x)) (Z.of_nat (length x) - 1);
  let gini := calculate_gini x in
  mret (mkGini gini (np_mul gini (Finite ratio))
          (Finite (inject_Z (Z.of_nat (length x))))).

(** With [m] the number of rows of the returned table [df]: [df] has
    the first [m] bins of the ranked sample [f], and the Gini table
    has, under the sample's name, the row computed from the first [m]
    ranked abundances of [f]. *)
Definition scored_on_kept_ranks (gini_df : GiniTable) (f df : DataFrame)
    : Prop :=
  exists title g,
    title_of f = Val title /\
    index df = take (len df) (index f) /\
    score_values (take (len df) (column_cells 0 f)) = Val g /\
    (title, g) ∈ gini_df.

(** ** Example tables *)

Definition table_AB : DataFrame :=
  mkDF ["A"; "B"]
    [("b1", [0.5; 0.34]); ("b2", [0.3; 0.33]); ("b3", [0.2; 0.33])].

Definition table_trunc : DataFrame :=
  mkDF ["A"; "B"]
    [("b1", [0.6; 0.2]); ("b2", [0.4; 0.3]); ("b3", [0; 0.5])].

Definition table_single : DataFrame :=
  mkDF ["A"] [("b1", [1])].

(** One sample reaches full abundance on its first bin. *)
Definition table_two : DataFrame :=
  mkDF ["A"; "B"] [("b1", [1; 0.5]); ("b2", [0; 0.5])].

(** The single column sums to 0.5. *)
Definition table_half : DataFrame :=
  mkDF ["A"] [("b1", [0.5])].

Definition table_zero_row : DataFrame :=
  mkDF ["A"; "B"]
    [("b1", [0.5; 0.5]); ("b2", [0; 0]); ("b3", [0.5; 0.5])].

(** Sample A of [table_trunc] after ranking and accumulation. *)
Definition sample_A_cum : DataFrame :=
  mkDF ["A"; "Cum Rel Abund"]
    [("b1", [0.6; 0.6]); ("b2", [0.4; 1]); ("b3", [0; 1])].


(** A sample that carries the name of the rank-proportion column. *)
Definition table_named_cum_prop : DataFrame :=
  mkDF ["Cum Prop TRFs"] [("b1", [0.6]); ("b2", [0.4])].

(** Sample A of [table_trunc] after ranking. *)
Definition sample_A_ranked : DataFrame :=
  mkDF ["A"] [("b1", [0.6]); ("b2", [0.4]); ("b3", [0])].

(** * Properties *)

Close Scope Q_scope.

(** ** The store *)

Lemma bind_val {A B} (m : M A) (f : A -> M B) (h h' : heap) a :
  m h = Val (a, h') -> (m ≫= f) h = f a h'.
Proof. intros Hm. unfold mbind, M_bind. now rewrite Hm. Qed.

Lemma bind_raise {A B} (m : M A) (f : A -> M B) (h : heap) e :
  m h = Raise e -> (m ≫= f) h = Raise e.
Proof. intros Hm. unfold mbind, M_bind. now rewrite Hm. Qed.

Lemma deref_val (h : heap) r d : h !! r = Some d -> deref r h = Val (d, h).
Proof. intros Hr. unfold deref. now rewrite Hr. Qed.

(** [stored h rs ds]: the references [rs] point to the frames [ds]. *)
Definition stored (h : heap) (rs : list ref) (ds : list DataFrame) : Prop :=
  Forall2 (fun r d => h !! r = Some d) rs ds.

Lemma deref_all_stored h rs ds :
  stored h rs ds -> deref_all rs h = Val (ds, h).
Proof.
  induction 1 as [|r d rs ds Hr _ IH]; [reflexivity|].
  cbn [deref_all].
  rewrite (bind_val _ _ h h d) by now apply deref_val.
  now rewrite (bind_val _ _ h h ds) by exact IH.
Qed.

Lemma frames_of_stored h rs ds : stored h rs ds -> frames_of h rs = Val ds.
Proof.
  intros Hs. unfold frames_of.
  assert (mapM (fun r : ref => h !! r) rs = Some ds) as ->; [|reflexivity].
  induction Hs as [|r d rs ds Hr _ IH]; [reflexivity|].
  cbn. rewrite Hr. cbn. now rewrite IH.
Qed.

Lemma stored_lt h rs ds r : stored h rs ds -> r ∈ rs -> r < length h.
Proof.
  induction 1 as [|r0 d rs ds Hr _ IH]; intros Hin.
  - now apply elem_of_nil in Hin.
  - apply elem_of_cons in Hin as [->|Hin]; [|auto].
    eapply lookup_lt_Some, Hr.
Qed.

Lemma stored_ext h h' rs ds :
  stored h rs ds -> (forall r, r ∈ rs -> h' !! r = h !! r) -> stored h' rs ds.
Proof.
  induction 1 as [|r d rs ds Hr _ IH]; intros Heq; constructor.
  - rewrite Heq; [exact Hr | left].
  - apply IH. intros x Hx. apply Heq. now right.
Qed.

(** What a per-sample body does to the store, given the function [F]
    it computes on the frame: the result is stored behind the returned
    reference, which is the argument or a new object, and no other
    object changes. *)
Definition body_ok (F : DataFrame -> res DataFrame) (body : ref -> M ref)
    : Prop :=
  forall (h : heap) r d, h !! r = Some d ->
    match F d with
    | Raise e => body r h = Raise e
    | Val d' =>
        exists r' h',
          body r h = Val (r', h') /\
          length h <= length h' /\
          h' !! r' = Some d' /\
          (r' = r \/ length h <= r') /\
          (forall x, x <> r' -> x < length h -> h' !! x = h !! x)
    end.

Lemma for_samples_spec F body :
  body_ok F body ->
  forall rs ds (h : heap) acc,
    NoDup rs -> stored h rs ds ->
    match mapM F ds with
    | Raise e => for_samples body rs acc h = Raise e
    | Val ds' =>
        exists rs' h',
          for_samples body rs acc h = Val (acc ++ rs', h') /\
          stored h' rs' ds' /\
          NoDup rs' /\
          length h <= length h' /\
          Forall (fun r' => r' ∈ rs \/ length h <= r') rs' /\
          (forall x, x < length h -> x ∉ rs -> h' !! x = h !! x)
    end.
Proof.
  intros Hbody rs ds h acc Hnd Hst. revert h acc Hnd Hst.
  induction ds as [|d ds IH] in rs |- *; intros h acc Hnd Hst.
  - inversion Hst; subst. cbn.
    exists [], h. rewrite app_nil_r. repeat split; auto; constructor.
  - inversion Hst as [|r d0 rs0 ds0 Hr Hst']; subst.
    apply NoDup_cons in Hnd as [Hnotin Hnd].
    cbn [mapM for_samples].
    specialize (Hbody h r d Hr).
    destruct (F d) as [d'|e]; cbn.
    2:{ now apply bind_raise. }
    destruct Hbody as (r' & h1 & Hb & Hlen & Hr' & Hfresh & Hframe).
    rewrite (bind_val _ _ h h1 r') by exact Hb.
    assert (Hne : forall x, x ∈ rs0 -> x <> r').
    { intros x Hx ->. destruct Hfresh as [->|Hge]; [contradiction|].
      pose proof (stored_lt _ _ _ _ Hst' Hx). lia. }
    assert (Hst1 : stored h1 rs0 ds).
    { eapply stored_ext; [exact Hst'|]. intros x Hx.
      apply Hframe; [now apply Hne|]. eapply stored_lt; eauto. }
    specialize (IH rs0 h1 (acc ++ [r']) Hnd Hst1).
    destruct (mapM F ds) as [ds'|e]; cbn; [|exact IH].
    destruct IH as (rs' & h' & Hrun & Hst2 & Hnd2 & Hlen2 & Hor & Hframe2).
    assert (Hr'lt : r' < length h1) by (eapply lookup_lt_Some; eauto).
    assert (Hr'notin : r' ∉ rs0) by (intros Hx; now apply (Hne r')).
    exists (r' :: rs'), h'. split; [|split; [|split; [|split; [|split]]]].
    + rewrite Hrun. now rewrite <- app_assoc.
    + constructor; [|exact Hst2].
      rewrite <- Hr'. apply Hframe2; auto.
    + apply NoDup_cons. split; [|exact Hnd2].
      intros Hin. rewrite Forall_forall in Hor.
      destruct (Hor r' Hin) as [?|?]; [contradiction|lia].
    + lia.
    + constructor.
      * destruct Hfresh as [->|?]; [left; left|now right].
      * eapply Forall_impl; [exact Hor|]. cbn. intros x [Hx|Hx].
        -- left. now right.
        -- right. lia.
    + intros x Hx Hnotin'.
      apply not_elem_of_cons in Hnotin' as [Hxr Hxrs].
      rewrite Hframe2; [|lia|exact Hxrs].
      apply Hframe; [|exact Hx].
      intros ->. destruct Hfresh as [->|?]; [contradiction|lia].
Qed.

Lemma in_place_ok F : body_ok F (in_place F).
Proof.
  intros h r d Hr. unfold in_place.
  destruct (F d) as [d'|e] eqn:HF.
  - exists r, (<[r := d']> h).
    pose proof (lookup_lt_Some _ _ _ Hr) as Hlt.
    split; [|split; [|split; [|split]]].
    + rewrite (bind_val _ _ h h d) by now apply deref_val.
      unfold lift. rewrite HF. reflexivity.
    + now rewrite length_insert.
    + now apply list_lookup_insert_eq.
    + now left.
    + intros x Hx _. apply list_lookup_insert_ne. congruence.
  - rewrite (bind_val _ _ h h d) by now apply deref_val.
    apply bind_raise. unfold lift. now rewrite HF.
Qed.

(** A loop that reports [fresh = false] returns the frame it was given. *)
Definition keeps_identity (loop : DataFrame -> res (bool * DataFrame)) : Prop :=
  forall d d', loop d = Val (false, d') -> d' = d.

Lemma rebound_run loop (h : heap) r d :
  h !! r = Some d ->
  rebound loop r h =
    match loop d with
    | Raise e => Raise e
    | Val (true, d') => Val (length h, h ++ [d'])
    | Val (false, _) => Val (r, h)
    end.
Proof.
  intros Hr. unfold rebound.
  rewrite (bind_val _ _ h h d) by now apply deref_val.
  destruct (loop d) as [[[|] d']|e].
  - now rewrite (bind_val _ _ h h (true, d')).
  - now rewrite (bind_val _ _ h h (false, d')).
  - now apply bind_raise.
Qed.

Lemma rebound_ok loop :
  keeps_identity loop -> body_ok (fun d => snd <$> loop d) (rebound loop).
Proof.
  intros Hid h r d Hr. rewrite (rebound_run _ _ _ _ Hr).
  destruct (loop d) as [[[|] d']|e] eqn:HL; cbn; [| |reflexivity].
  - exists (length h), (h ++ [d']).
    split; [reflexivity|]. split; [rewrite length_app; lia|].
    split; [|split; [now right|]].
    + rewrite lookup_app_r by lia. now rewrite Nat.sub_diag.
    + intros x _ Hx. now apply lookup_app_l.
  - apply Hid in HL as ->. exists r, h. repeat split; auto.
Qed.

(** A [rebound] stage never changes an object of the store it got. *)
Lemma rebound_frame loop (h h' : heap) r r' :
  rebound loop r h = Val (r', h') ->
  forall x, x < length h -> h' !! x = h !! x.
Proof.
  destruct (h !! r) as [d|] eqn:Hr.
  - rewrite (rebound_run _ _ _ _ Hr).
    destruct (loop d) as [[[|] d']|e]; intros [= <- <-] x Hx;
      [now apply lookup_app_l | reflexivity].
  - unfold rebound. rewrite (bind_raise _ _ h KeyError); [discriminate|].
    unfold deref. now rewrite Hr.
Qed.

Lemma remove_zeros_loop_identity labels fresh d d' :
  remove_zeros_loop labels fresh d = Val (false, d') ->
  fresh = false /\ d' = d.
Proof.
  revert fresh d. induction labels as [|l labels IH]; intros fresh d; cbn.
  - now intros [= -> ->].
  - destruct (sum_loc_row d l) as [total|]; cbn; [|discriminate].
    destruct (Qeq_bool total 0).
    + destruct (drop l d) as [d1|]; cbn; [|discriminate].
      intros H. now apply IH in H as [? _].
    + apply IH.
Qed.

Lemma over_one_loop_identity col labels found fresh d d' :
  over_one_loop col labels found fresh d = Val (false, d') ->
  fresh = false /\ d' = d.
Proof.
  revert found fresh d.
  induction labels as [|l labels IH]; intros found fresh d; cbn.
  - now intros [= -> ->].
  - destruct (lookup_cell _ l col) as [v|]; cbn; [|discriminate].
    destruct found.
    + destruct (drop l d) as [d1|]; cbn; [|discriminate].
      intros H. now apply IH in H as [? _].
    + destruct (gt_truth v _) as [[|]|]; cbn; [apply IH|apply IH|discriminate].
Qed.

Lemma remove_zeros_ok : body_ok pruned remove_zeros.
Proof.
  apply (rebound_ok (fun d => remove_zeros_loop (index d) false d)).
  intros d d' H. now apply remove_zeros_loop_identity in H.
Qed.

Lemma over_one_ok : body_ok truncated (rebound over_one).
Proof.
  apply rebound_ok. intros d d' H.
  now apply over_one_loop_identity in H.
Qed.

Lemma stored_seq (h : heap) fs : stored (h ++ fs) (seq (length h) (length fs)) fs.
Proof.
  revert h. induction fs as [|f fs IH]; intros h; [constructor|].
  cbn [length seq]. constructor.
  - rewrite lookup_app_r by lia. now rewrite Nat.sub_diag.
  - specialize (IH (h ++ [f])).
    rewrite <- app_assoc, length_app in IH. cbn in IH.
    now rewrite Nat.add_1_r in IH.
Qed.

Lemma sort_bins_loop_spec sort_values d cols acc (h : heap) :
  sort_bins_loop sort_values d cols acc h =
    match mapM (fun col => to_frame col ∘ sort_values <$> loc_col d col) cols with
    | Raise e => Raise e
    | Val fs => Val (acc ++ seq (length h) (length fs), h ++ fs)
    end.
Proof.
  revert acc h. induction cols as [|col cols IH]; intros acc h.
  - cbn. now rewrite !app_nil_r.
  - cbn [sort_bins_loop mapM].
    destruct (loc_col d col) as [s|e] eqn:Hs; cbn.
    2:{ apply bind_raise. reflexivity. }
    rewrite (bind_val _ _ h h s) by reflexivity.
    rewrite (bind_val _ _ h (h ++ [to_frame col (sort_values s)]) (length h))
      by reflexivity.
    rewrite IH.
    destruct (mapM _ cols) as [fs|e]; cbn; [|reflexivity].
    rewrite length_app, <- !app_assoc. cbn. now rewrite Nat.add_1_r.
Qed.

Lemma stage_spec F body :
  body_ok F body ->
  forall rs ds (h : heap),
    NoDup rs -> stored h rs ds ->
    match mapM F ds with
    | Raise e => for_samples body rs [] h = Raise e
    | Val ds' =>
        exists rs' h',
          for_samples body rs [] h = Val (rs', h') /\
          stored h' rs' ds' /\ NoDup rs'
    end.
Proof.
  intros Hbody rs ds h Hnd Hst.
  pose proof (for_samples_spec F body Hbody rs ds h [] Hnd Hst) as H.
  destruct (mapM F ds) as [ds'|e]; [|exact H].
  destruct H as (rs' & h' & Hrun & Hst' & Hnd' & _).
  exists rs', h'. auto.
Qed.

Lemma sort_bins_spec sort_values (h : heap) r d :
  h !! r = Some d ->
  match ranked sort_values d with
  | Raise e => sort_bins sort_values r h = Raise e
  | Val fs =>
      exists rs h',
        sort_bins sort_values r h = Val (rs, h') /\
        stored h' rs fs /\ NoDup rs
  end.
Proof.
  intros Hr. unfold sort_bins, ranked.
  rewrite (bind_val _ _ h h d) by now apply deref_val.
  rewrite sort_bins_loop_spec.
  destruct (mapM _ (columns d)) as [fs|e]; [|reflexivity].
  exists (seq (length h) (length fs)), (h ++ fs).
  split; [reflexivity|]. split; [apply stored_seq|apply NoDup_seq].
Qed.

Lemma read_only_spec {A} (f : list DataFrame -> res A) (h : heap) rs ds :
  stored h rs ds ->
  (cols ← deref_all rs; lift (f cols)) h =
    match f ds with
    | Val a => Val (a, h)
    | Raise e => Raise e
    end.
Proof.
  intros Hst.
  rewrite (bind_val _ _ h h ds) by now apply deref_all_stored.
  reflexivity.
Qed.

Lemma check_columns_run (h : heap) r d :
  h !! r = Some d ->
  check_columns r h =
    match check_columns_loop d (columns d) with
    | Val ok => Val (ok, h)
    | Raise e => Raise e
    end.
Proof.
  intros Hr. unfold check_columns.
  now rewrite (bind_val _ _ h h d) by now apply deref_val.
Qed.

(** [run] returns what the pipeline computes on values, whatever the
    store it starts from. *)
Lemma run_output_value sort_values input (h : heap) :
  run_output sort_values input h = run_value sort_values input.
Proof.
  unfold run_output, run, run_value, truncated_curves.
  set (h0 := h ++ [input]).
  assert (Hr0 : h0 !! length h = Some input).
  { unfold h0. rewrite lookup_app_r by lia. now rewrite Nat.sub_diag. }
  rewrite (bind_val _ _ h h0 (length h)) by reflexivity.
  pose proof (check_columns_run h0 (length h) input Hr0) as Hcc.
  destruct (check_columns_loop input (columns input)) as [[|]|e] eqn:Hck;
    cbn [mbind res_bind].
  2:{ now rewrite (bind_val _ _ h0 h0 false) by exact Hcc. }
  2:{ now rewrite (bind_raise _ _ h0 e) by exact Hcc. }
  rewrite (bind_val _ _ h0 h0 true) by exact Hcc.
  pose proof (remove_zeros_ok h0 (length h) input Hr0) as Hrz.
  destruct (pruned input) as [d1|e]; cbn [mbind res_bind].
  2:{ now rewrite (bind_raise _ _ h0 e). }
  destruct Hrz as (r1 & h1 & Hrz & _ & Hr1 & _).
  rewrite (bind_val _ _ h0 h1 r1) by exact Hrz.
  pose proof (sort_bins_spec sort_values h1 r1 d1 Hr1) as Hsb.
  destruct (ranked sort_values d1) as [fs|e]; cbn [mbind res_bind].
  2:{ now rewrite (bind_raise _ _ h1 e). }
  destruct Hsb as (rs2 & h2 & Hsb & Hst2 & Hnd2).
  rewrite (bind_val _ _ h1 h2 rs2) by exact Hsb.
  pose proof (stage_spec _ _ (in_place_ok add_cum_rel_abund) rs2 fs h2 Hnd2 Hst2)
    as Hcra.
  unfold calculate_cumulative_relative_abundance.
  destruct (mapM add_cum_rel_abund fs) as [ds3|e]; cbn [mbind res_bind].
  2:{ now rewrite (bind_raise _ _ h2 e). }
  destruct Hcra as (rs3 & h3 & Hcra & Hst3 & Hnd3).
  rewrite (bind_val _ _ h2 h3 rs3) by exact Hcra.
  pose proof (stage_spec _ _ over_one_ok rs3 ds3 h3 Hnd3 Hst3) as Hoo.
  unfold remove_cumulative_abundance_over_one.
  destruct (mapM truncated ds3) as [ds4|e]; cbn [mbind res_bind].
  2:{ now rewrite (bind_raise _ _ h3 e). }
  destruct Hoo as (rs4 & h4 & Hoo & Hst4 & Hnd4).
  rewrite (bind_val _ _ h3 h4 rs4) by exact Hoo.
  pose proof (stage_spec _ _ (in_place_ok add_cum_prop_trfs) rs4 ds4 h4 Hnd4 Hst4)
    as Hcpt.
  unfold calculate_cumulative_prop_trf.
  destruct (mapM add_cum_prop_trfs ds4) as [ds5|e]; cbn [mbind res_bind].
  2:{ now rewrite (bind_raise _ _ h4 e). }
  destruct Hcpt as (rs5 & h5 & Hcpt & Hst5 & Hnd5).
  rewrite (bind_val _ _ h4 h5 rs5) by exact Hcpt.
  unfold make_graph, make_gini_file.
  pose proof (read_only_spec (fun cols => make_graph_loop cols []) h5 rs5 ds5 Hst5)
    as Hg.
  destruct (make_graph_loop ds5 []) as [plot|e]; cbn [mbind res_bind].
  2:{ now rewrite (bind_raise _ _ h5 e). }
  rewrite (bind_val _ _ h5 h5 plot) by exact Hg.
  pose proof (read_only_spec make_gini_df h5 rs5 ds5 Hst5) as Hgi.
  destruct (make_gini_df ds5) as [gini_df|e]; cbn [mbind res_bind].
  2:{ now rewrite (bind_raise _ _ h5 e). }
  rewrite (bind_val _ _ h5 h5 gini_df) by exact Hgi.
  cbn. now rewrite (frames_of_stored _ _ _ Hst5).
Qed.

(** ** Column and row selection *)

Lemma positions_absent col cols k : col ∉ cols -> positions col cols k = [].
Proof.
  revert k. induction cols as [|c cols IH]; intros k Hnotin; [reflexivity|].
  apply not_elem_of_cons in Hnotin as [Hne Hnotin]. cbn.
  unfold str_eqb. rewrite bool_decide_eq_false_2 by congruence. now apply IH.
Qed.

Lemma positions_unique col cols k p :
  NoDup cols -> cols !! p = Some col -> positions col cols k = [k + p].
Proof.
  revert k p. induction cols as [|c cols IH]; intros k p Hnd Hp; [easy|].
  apply NoDup_cons in Hnd as [Hnotin Hnd]. cbn. unfold str_eqb.
  destruct p as [|p]; cbn in Hp.
  - injection Hp as ->. rewrite bool_decide_eq_true_2 by reflexivity.
    rewrite positions_absent by exact Hnotin. now rewrite Nat.add_0_r.
  - rewrite bool_decide_eq_false_2.
    + rewrite (IH (S k) p Hnd Hp). f_equal. lia.
    + intros ->. apply Hnotin. eapply list_elem_of_lookup_2, Hp.
Qed.

Lemma positions_elem col cols k p :
  p ∈ positions col cols k -> k <= p /\ cols !! (p - k) = Some col.
Proof.
  revert k. induction cols as [|c cols IH]; intros k; cbn.
  - intros H. now apply elem_of_nil in H.
  - unfold str_eqb. case_bool_decide as Hc.
    + intros H. apply elem_of_cons in H as [->|H].
      * rewrite Nat.sub_diag. cbn. split; [lia|congruence].
      * apply IH in H as [Hle Hp]. split; [lia|].
        replace (p - k) with (S (p - S k)) by lia. exact Hp.
    + intros H. apply IH in H as [Hle Hp]. split; [lia|].
      replace (p - k) with (S (p - S k)) by lia. exact Hp.
Qed.

Lemma loc_col_unique d col p :
  NoDup (columns d) -> columns d !! p = Some col ->
  loc_col d col = Val (map (fun r => (fst r, cell p r)) (rows d)).
Proof.
  intros Hnd Hp. unfold loc_col.
  now rewrite (positions_unique col (columns d) 0 p Hnd Hp).
Qed.

(** ** Validator *)

Lemma Qlt_bool_false a b : Qlt_bool a b = false <-> (b <= a)%Q.
Proof.
  unfold Qlt_bool. rewrite negb_false_iff. apply Qle_bool_iff.
Qed.

Lemma Qlt_bool_true a b : Qlt_bool a b = true <-> (a < b)%Q.
Proof.
  unfold Qlt_bool. rewrite negb_true_iff. split.
  - intros H. apply Qnot_le_lt. intros Hle.
    apply Qle_bool_iff in Hle. congruence.
  - intros H. destruct (Qle_bool b a) eqn:E; [|reflexivity].
    apply Qle_bool_iff in E. lra.
Qed.

Lemma check_columns_loop_spec d cs k :
  NoDup (columns d) ->
  (forall i col, cs !! i = Some col -> columns d !! (k + i) = Some col) ->
  exists ok,
    check_columns_loop d cs = Val ok /\
    (ok = true <->
     forall i col, cs !! i = Some col ->
       in_tolerance (py_sum (column_cells (k + i) d))).
Proof.
  intros Hnd. revert k. induction cs as [|c cs IH]; intros k Hcs.
  - exists true. split; [reflexivity|]. split; [|reflexivity].
    intros _ i col Hi. discriminate.
  - cbn [check_columns_loop].
    assert (Hk : columns d !! k = Some c).
    { specialize (Hcs 0 c eq_refl). now rewrite Nat.add_0_r in Hcs. }
    rewrite (loc_col_unique d c k Hnd Hk). cbn [mbind res_bind].
    rewrite map_map. cbn [snd].
    change (map (fun x => cell k x) (rows d)) with (column_cells k d).
    destruct (IH (S k)) as (ok & Hrun & Hok).
    { intros i col Hi. specialize (Hcs (S i) col Hi).
      now rewrite Nat.add_succ_r in Hcs. }
    set (total := py_sum (column_cells k d)) in *.
    destruct (Qlt_bool total 0.9999 || Qlt_bool 1.0001 total) eqn:Hout.
    + exists false. split; [reflexivity|]. split; [discriminate|].
      intros Hall. specialize (Hall 0 c eq_refl).
      rewrite Nat.add_0_r in Hall. fold total in Hall.
      destruct Hall as [Hlo Hhi].
      apply orb_true_iff in Hout as [H|H]; apply Qlt_bool_true in H; lra.
    + exists ok. split; [exact Hrun|]. rewrite Hok.
      apply orb_false_iff in Hout as [Hlo Hhi].
      apply Qlt_bool_false in Hlo, Hhi.
      split.
      * intros Hall [|i] col Hi.
        -- rewrite Nat.add_0_r. fold total. now split.
        -- rewrite Nat.add_succ_r. exact (Hall i col Hi).
      * intros Hall i col Hi. specialize (Hall (S i) col Hi).
        now rewrite Nat.add_succ_r in Hall.
Qed.

(** C8. For a table with distinct sample names, [check_columns]
    returns, leaves the store as it is, and answers [True] exactly when
    the sum of every sample column lies between 0.9999 and 1.0001; a
    column summing to less or to more makes it answer [False]. *)
Theorem check_columns_accepts_iff (h : heap) (df : ref) (d : DataFrame) :
  h !! df = Some d ->
  NoDup (columns d) ->
  exists ok,
    check_columns df h = Val (ok, h) /\
    (ok = true <->
     forall p col, columns d !! p = Some col ->
       in_tolerance (py_sum (column_cells p d))).
Proof.
  intros Hdf Hnd. rewrite (check_columns_run h df d Hdf).
  destruct (check_columns_loop_spec d (columns d) 0 Hnd) as (ok & Hrun & Hok).
  { intros i col Hi. exact Hi. }
  exists ok. rewrite Hrun. split; [reflexivity|exact Hok].
Qed.

Lemma check_columns_accepts_iff_witness :
  exists ok,
    check_columns 0 [table_AB] = Val (ok, [table_AB]) /\
    (ok = true <->
     forall p col, columns table_AB !! p = Some col ->
       in_tolerance (py_sum (column_cells p table_AB))).
Proof.
  apply (check_columns_accepts_iff [table_AB] 0 table_AB).
  - reflexivity.
  - apply (bool_decide_unpack _). vm_compute. exact I.
Defined.

(** ** Pruner *)

Lemma fold_sum_nonneg l a :
  (0 <= a)%Q -> Forall (fun x => 0 <= x)%Q l ->
  (0 <= fold_left Qplus l a)%Q /\
  (fold_left Qplus l a == 0 <-> a == 0 /\ Forall (fun x => x == 0) l)%Q.
Proof.
  intros Ha Hl. revert a Ha.
  induction Hl as [|x l Hx _ IH]; intros a Ha; cbn.
  - split; [exact Ha|]. split; [intros H; split; [exact H|constructor]|tauto].
  - destruct (IH (a + x)%Q) as [Hge Hiff]; [lra|].
    split; [exact Hge|]. rewrite Hiff. split.
    + intros [Hax Hall]. split; [lra|]. constructor; [lra|exact Hall].
    + intros [Ha0 Hall]. inversion Hall; subst. split; [lra|assumption].
Qed.

Lemma py_sum_zero_all_zero r :
  Forall (fun x => 0 <= x)%Q (snd r) ->
  Qeq_bool (py_sum (snd r)) 0 = all_zero r.
Proof.
  intros Hnn. unfold py_sum, all_zero.
  destruct (fold_sum_nonneg (snd r) 0%Q) as [_ Hiff]; [lra|exact Hnn|].
  apply eq_true_iff_eq. rewrite Qeq_bool_iff, Hiff, forallb_forall.
  rewrite Forall_forall. split.
  - intros [_ Hall] x Hx. apply Qeq_bool_iff, Hall. now apply list_elem_of_In.
  - intros Hall. split; [reflexivity|]. intros x Hx.
    apply Qeq_bool_iff, Hall. now apply list_elem_of_In.
Qed.

Lemma filter_none {A} (P : A -> Prop) `{!forall x, Decision (P x)} (l : list A) :
  (forall x, x ∈ l -> ~ P x) -> filter P l = [].
Proof.
  induction l as [|x l IH]; intros Hno; [reflexivity|].
  rewrite filter_cons_False by (apply Hno; left).
  apply IH. intros y Hy. apply Hno. now right.
Qed.

Lemma filter_all {A} (P : A -> Prop) `{!forall x, Decision (P x)} (l : list A) :
  (forall x, x ∈ l -> P x) -> filter P l = l.
Proof.
  induction l as [|x l IH]; intros Hall; [reflexivity|].
  rewrite filter_cons_True by (apply Hall; left).
  f_equal. apply IH. intros y Hy. apply Hall. now right.
Qed.

Lemma rows_at_unique pre r suf :
  NoDup (map fst (pre ++ r :: suf)) ->
  rows_at (fst r) (pre ++ r :: suf) = [r] /\
  filter (fun x : Row => fst x <> fst r) (pre ++ r :: suf) = pre ++ suf.
Proof.
  intros Hnd. rewrite map_app in Hnd. cbn in Hnd.
  apply NoDup_app in Hnd as (_ & Hdisj & Hnd).
  apply NoDup_cons in Hnd as [Hnotin _].
  assert (Hpre : forall x, x ∈ pre -> fst x <> fst r).
  { intros x Hx Heq. apply (Hdisj (fst x)).
    - apply list_elem_of_fmap. now exists x.
    - rewrite Heq. left. }
  assert (Hsuf : forall x, x ∈ suf -> fst x <> fst r).
  { intros x Hx Heq. apply Hnotin. rewrite <- Heq.
    apply list_elem_of_fmap. now exists x. }
  unfold rows_at. rewrite !filter_app, !filter_cons.
  rewrite decide_True by reflexivity.
  rewrite (decide_False (P := fst r <> fst r)) by tauto.
  split.
  - rewrite (filter_none _ pre), (filter_none _ suf); auto.
  - f_equal; apply filter_all; auto.
Qed.

Lemma remove_zeros_loop_filter cols pre suf fresh :
  NoDup (map fst (pre ++ suf)) ->
  exists fresh',
    remove_zeros_loop (map fst suf) fresh (mkDF cols (pre ++ suf)) =
      Val (fresh',
           mkDF cols
             (pre ++ filter (fun r => Qeq_bool (py_sum (snd r)) 0 = false) suf)).
Proof.
  revert pre fresh. induction suf as [|r suf IH]; intros pre fresh Hnd.
  - exists fresh. reflexivity.
  - cbn [map remove_zeros_loop]. unfold sum_loc_row, drop. cbn [rows columns].
    destruct (rows_at_unique pre r suf Hnd) as [-> Hdrop].
    cbn [mbind res_bind]. rewrite filter_cons.
    destruct (Qeq_bool (py_sum (snd r)) 0) eqn:Hz.
    + rewrite decide_False by congruence. rewrite Hdrop.
      apply IH. rewrite map_app in *. cbn in Hnd.
      apply NoDup_app in Hnd as (Hp & Hdisj & Hs).
      apply NoDup_cons in Hs as [_ Hs].
      apply NoDup_app. split; [exact Hp|]. split; [|exact Hs].
      intros x Hx Hx'. apply (Hdisj x Hx). now right.
    + rewrite decide_True by reflexivity.
      specialize (IH (pre ++ [r]) fresh).
      rewrite <- !app_assoc in IH. cbn in IH. now apply IH.
Qed.

Lemma filter_ext_in (P Q : Row -> Prop) `{!forall r, Decision (P r)}
    `{!forall r, Decision (Q r)} (l : list Row) :
  (forall r, r ∈ l -> P r <-> Q r) -> filter P l = filter Q l.
Proof.
  induction l as [|r l IH]; intros Hext; [reflexivity|].
  rewrite !filter_cons.
  rewrite IH by (intros x Hx; apply Hext; now right).
  destruct (decide (P r)) as [HP|HP], (decide (Q r)) as [HQ|HQ];
    try reflexivity; exfalso; apply (Hext r (list_elem_of_here _ _)) in HP ||
    apply (Hext r (list_elem_of_here _ _)) in HQ; contradiction.
Qed.

(** C10. On a table with distinct bin labels and non-negative cells,
    [remove_zeros] returns a table with the same columns whose rows are
    the rows of the input that are not all zero, unchanged and in their
    original order; the input table itself is left as it was. *)
Theorem remove_zeros_deletes_zero_rows (h : heap) (df : ref) (d : DataFrame) :
  h !! df = Some d ->
  NoDup (index d) ->
  nonnegative d ->
  exists r h',
    remove_zeros df h = Val (r, h') /\
    h' !! r =
      Some (mkDF (columns d) (filter (fun row => all_zero row = false) (rows d))) /\
    h' !! df = Some d.
Proof.
  intros Hdf Hnd Hnn.
  pose proof (remove_zeros_ok h df d Hdf) as Hok.
  destruct (remove_zeros_loop_filter (columns d) [] (rows d) false Hnd)
    as (fresh & Hloop).
  unfold pruned in Hok. destruct d as [cols rs]. cbn [columns rows] in *.
  unfold index in Hok. cbn [rows app] in Hok, Hloop. rewrite Hloop in Hok.
  cbn in Hok. destruct Hok as (r & h' & Hrun & Hlen & Hr & _ & _).
  exists r, h'. split; [exact Hrun|]. split.
  - rewrite Hr. do 2 f_equal. apply filter_ext_in. intros x Hx.
    unfold nonnegative in Hnn. cbn in Hnn. rewrite Forall_forall in Hnn.
    now rewrite py_sum_zero_all_zero by now apply Hnn.
  - rewrite (rebound_frame _ _ _ _ _ Hrun) by (eapply lookup_lt_Some; eauto).
    exact Hdf.
Qed.

Lemma remove_zeros_deletes_zero_rows_witness :
  exists r h',
    remove_zeros 0 [table_zero_row] = Val (r, h') /\
    h' !! r =
      Some (mkDF (columns table_zero_row)
              (filter (fun row => all_zero row = false) (rows table_zero_row))) /\
    h' !! 0 = Some table_zero_row.
Proof.
  apply (remove_zeros_deletes_zero_rows [table_zero_row] 0 table_zero_row).
  - reflexivity.
  - apply (bool_decide_unpack _). vm_compute. exact I.
  - repeat constructor; lra.
Defined.

(** ** Determinism *)

(** C9. Two runs of the pipeline on the same input return the same
    tables, the same plotted curves and the same Gini table (or raise
    the same exception), whatever objects the store already holds, in
    particular those left by a previous run. *)
Theorem run_deterministic (sort_values : Series -> Series)
    (input : DataFrame) (h1 h2 : heap) :
  run_output sort_values input h1 = run_output sort_values input h2.
Proof. now rewrite !run_output_value. Qed.

(** ** Truncation *)

Lemma lookup_cell_unique name p d pre r suf :
  NoDup (columns d) -> columns d !! p = Some name ->
  rows d = pre ++ r :: suf -> NoDup (index d) ->
  lookup_cell name (fst r) d = Val (Scalar (cell p r)).
Proof.
  intros Hnc Hp Hrows Hnd. unfold lookup_cell, index in *.
  rewrite (positions_unique name (columns d) 0 p Hnc Hp). cbn.
  rewrite Hrows in *. now destruct (rows_at_unique pre r suf Hnd) as [-> _].
Qed.

Lemma over_one_loop_found col nf pre suf fresh :
  rows nf = pre ++ suf ->
  NoDup (map fst (pre ++ suf)) ->
  Forall (fun r => exists v, lookup_cell "Cum Rel Abund" (fst r) col = Val v) suf ->
  exists fresh',
    over_one_loop col (map fst suf) true fresh nf =
      Val (fresh', mkDF (columns nf) pre).
Proof.
  destruct nf as [cols rs]. cbn [rows columns]. intros ->.
  revert fresh. induction suf as [|r suf IH]; intros fresh Hnd Hlk.
  - exists fresh. cbn. now rewrite app_nil_r.
  - inversion Hlk as [|? ? [v Hv] Hlk']; subst.
    cbn [map over_one_loop]. rewrite Hv. cbn [mbind res_bind].
    unfold drop. cbn [rows columns].
    destruct (rows_at_unique pre r suf Hnd) as [-> ->]. cbn [mbind res_bind].
    apply IH; [|exact Hlk'].
    rewrite map_app in *. cbn in Hnd.
    apply NoDup_app in Hnd as (Hp & Hdisj & Hs).
    apply NoDup_cons in Hs as [_ Hs].
    apply NoDup_app. split; [exact Hp|]. split; [|exact Hs].
    intros x Hx Hx'. apply (Hdisj x Hx). now right.
Qed.

Lemma over_one_loop_scan p d pre suf fresh :
  NoDup (columns d) -> columns d !! p = Some "Cum Rel Abund" ->
  NoDup (index d) -> rows d = pre ++ suf ->
  exists fresh',
    over_one_loop d (map fst suf) false fresh d =
      Val (fresh',
           mkDF (columns d) (pre ++ keep_through_first (over_threshold p) suf)).
Proof.
  intros Hnc Hp Hnd. revert pre fresh.
  induction suf as [|r suf IH]; intros pre fresh Hrows.
  - exists fresh. cbn. rewrite <- Hrows. now destruct d.
  - cbn [map over_one_loop keep_through_first].
    rewrite (lookup_cell_unique _ p d pre r suf Hnc Hp Hrows Hnd).
    cbn [mbind res_bind gt_truth]. fold (over_threshold p r).
    destruct (over_threshold p r).
    + apply over_one_loop_found.
      * now rewrite <- app_assoc.
      * rewrite <- app_assoc. cbn. unfold index in Hnd. now rewrite <- Hrows.
      * apply Forall_forall. intros x Hx.
        apply list_elem_of_split in Hx as (s1 & s2 & ->).
        exists (Scalar (cell p x)).
        apply (lookup_cell_unique _ p d (pre ++ r :: s1) x s2 Hnc Hp); [|exact Hnd].
        rewrite Hrows, <- app_assoc. reflexivity.
    + specialize (IH (pre ++ [r]) fresh).
      rewrite <- !app_assoc in IH. cbn in IH. now apply IH.
Qed.

Lemma keep_through_first_cases (over : Row -> bool) rs :
  (exists k r,
     rs !! k = Some r /\ over r = true /\
     (forall j r', j < k -> rs !! j = Some r' -> over r' = false) /\
     keep_through_first over rs = take (S k) rs)
  \/
  ((forall r, r ∈ rs -> over r = false) /\ keep_through_first over rs = rs).
Proof.
  induction rs as [|r rs IH].
  - right. split; [|reflexivity]. intros r Hr. now apply elem_of_nil in Hr.
  - cbn [keep_through_first]. destruct (over r) eqn:Hr.
    + left. exists 0, r. split; [reflexivity|]. split; [exact Hr|].
      split; [intros j r' Hj; lia|]. cbn. now rewrite take_0.
    + destruct IH as [(k & r' & Hk & Hov & Hbefore & Htake)|[Hnone Hsame]].
      * left. exists (S k), r'. split; [exact Hk|]. split; [exact Hov|]. split.
        -- intros [|j] x Hj Hx; cbn in Hx; [congruence|].
           apply (Hbefore j); [lia|exact Hx].
        -- cbn. now rewrite Htake.
      * right. split; [|now rewrite Hsame].
        intros x Hx. apply elem_of_cons in Hx as [->|Hx]; auto.
Qed.

Lemma over_threshold_false p r :
  over_threshold p r = false <-> ~ (0.999999 < cell p r)%Q.
Proof.
  unfold over_threshold. rewrite <- Qlt_bool_true.
  destruct (Qlt_bool _ _); split; congruence.
Qed.

Lemma truncated_spec p d :
  NoDup (columns d) -> columns d !! p = Some "Cum Rel Abund" ->
  NoDup (index d) ->
  exists d', truncated d = Val d' /\ truncation_of p d d'.
Proof.
  intros Hnc Hp Hnd. unfold truncated, over_one, index at 1.
  destruct (over_one_loop_scan p d [] (rows d) false Hnc Hp Hnd eq_refl)
    as (fresh & Hrun).
  rewrite Hrun. cbn [fmap res_fmap snd app]. eexists. split; [reflexivity|].
  split; [reflexivity|]. cbn [rows columns].
  destruct (keep_through_first_cases (over_threshold p) (rows d))
    as [(k & r & Hk & Hov & Hbefore & Htake)|[Hnone Hsame]].
  - left. exists k, r. repeat split; auto.
    + now apply Qlt_bool_true.
    + intros j r' Hj Hr'. apply over_threshold_false. eauto.
  - right. split.
    + intros r Hr. apply over_threshold_false. auto.
    + rewrite Hsame. now destruct d.
Qed.

Lemma mapM_total {A B} (F : A -> res B) (P : A -> B -> Prop) l :
  Forall (fun a => exists b, F a = Val b /\ P a b) l ->
  exists l', mapM F l = Val l' /\ Forall2 P l l'.
Proof.
  induction 1 as [|a l (b & HF & HP) _ (l' & HM & HPs)].
  - exists []. split; [reflexivity|constructor].
  - exists (b :: l'). cbn. rewrite HF. cbn. rewrite HM. cbn.
    split; [reflexivity|now constructor].
Qed.

Lemma for_samples_frame body :
  (forall r (h h' : heap) r',
     body r h = Val (r', h') ->
     length h <= length h' /\ forall x, x < length h -> h' !! x = h !! x) ->
  forall rs acc (h h' : heap) out,
    for_samples body rs acc h = Val (out, h') ->
    length h <= length h' /\ forall x, x < length h -> h' !! x = h !! x.
Proof.
  intros Hbody rs. induction rs as [|r rs IH]; intros acc h h' out; cbn.
  - intros [= <- <-]. auto.
  - unfold mbind, M_bind. destruct (body r h) as [[r1 h1]|e] eqn:Hb; [|discriminate].
    intros Hrun. apply Hbody in Hb as [Hlen Hsame].
    apply IH in Hrun as [Hlen' Hsame'].
    split; [lia|]. intros x Hx. rewrite Hsame' by lia. now apply Hsame.
Qed.

Lemma rebound_grows loop (h h' : heap) r r' :
  rebound loop r h = Val (r', h') ->
  length h <= length h' /\ forall x, x < length h -> h' !! x = h !! x.
Proof.
  intros Hrun. split; [|now apply (rebound_frame loop h h' r r')].
  destruct (h !! r) as [d|] eqn:Hr.
  - rewrite (rebound_run _ _ _ _ Hr) in Hrun.
    destruct (loop d) as [[[|] d']|e]; [| |discriminate];
      injection Hrun as <- <-; [rewrite length_app; lia | lia].
  - unfold rebound in Hrun. rewrite (bind_raise _ _ h KeyError) in Hrun;
      [discriminate|]. unfold deref. now rewrite Hr.
Qed.

(** C5. Given sample tables with distinct bin labels and one
    "Cum Rel Abund" column each, [remove_cumulative_abundance_over_one]
    returns, and for every sample it yields the rows up to and including
    the first one whose cumulative relative abundance exceeds 0.999999,
    nothing after it; a sample without such a row is returned as it is.
    The tables passed in are not modified. *)
Theorem truncation_keeps_through_first_over (h : heap) (samples : list ref)
    (ds : list DataFrame) :
  NoDup samples ->
  stored h samples ds ->
  Forall (fun d => NoDup (index d) /\ NoDup (columns d) /\
                   "Cum Rel Abund" ∈ columns d) ds ->
  exists samples2 h' ds',
    remove_cumulative_abundance_over_one samples h = Val (samples2, h') /\
    stored h' samples2 ds' /\
    Forall2 (fun d d' => exists p, columns d !! p = Some "Cum Rel Abund" /\
                                   truncation_of p d d') ds ds' /\
    stored h' samples ds.
Proof.
  intros Hnd Hst Hds.
  destruct (mapM_total truncated
    (fun d d' => exists p, columns d !! p = Some "Cum Rel Abund" /\
                           truncation_of p d d') ds) as (ds' & HM & HR).
  { eapply Forall_impl; [exact Hds|]. cbn. intros d (Hi & Hc & Hin).
    apply list_elem_of_lookup_1 in Hin as [p Hp].
    destruct (truncated_spec p d Hc Hp Hi) as (d' & Ht & Htr). eauto. }
  pose proof (stage_spec _ _ over_one_ok samples ds h Hnd Hst) as Hstage.
  rewrite HM in Hstage. destruct Hstage as (rs' & h' & Hrun & Hst' & _).
  exists rs', h', ds'. unfold remove_cumulative_abundance_over_one.
  split; [exact Hrun|]. split; [exact Hst'|]. split; [exact HR|].
  eapply stored_ext; [exact Hst|]. intros r Hr.
  eapply (for_samples_frame (rebound over_one)); [|exact Hrun|].
  - intros ? ? ? ?. apply rebound_grows.
  - eapply stored_lt; eauto.
Qed.

Lemma truncation_keeps_through_first_over_witness :
  exists samples2 h' ds',
    remove_cumulative_abundance_over_one [0] [sample_A_cum] = Val (samples2, h') /\
    stored h' samples2 ds' /\
    Forall2 (fun d d' => exists p, columns d !! p = Some "Cum Rel Abund" /\
                                   truncation_of p d d') [sample_A_cum] ds' /\
    stored h' [0] [sample_A_cum].
Proof.
  apply (truncation_keeps_through_first_over [sample_A_cum] [0] [sample_A_cum]).
  - apply (bool_decide_unpack _). vm_compute. exact I.
  - repeat constructor.
  - apply Forall_cons_2; [|constructor].
    split; [|split]; apply (bool_decide_unpack _); vm_compute; exact I.
Defined.

(** ** Cumulative relative abundance *)

Lemma in_place_run F (h : heap) r d :
  h !! r = Some d ->
  in_place F r h =
    match F d with
    | Val d' => Val (r, <[r := d']> h)
    | Raise e => Raise e
    end.
Proof.
  intros Hr. unfold in_place.
  rewrite (bind_val _ _ h h d) by now apply deref_val.
  destruct (F d) as [d'|e].
  - now rewrite (bind_val _ _ h h d').
  - now apply bind_raise.
Qed.

Lemma in_place_stage F rs :
  forall ds (h : heap) acc,
    stored h rs ds -> NoDup rs ->
    match mapM F ds with
    | Raise e => for_samples (in_place F) rs acc h = Raise e
    | Val ds' =>
        exists h',
          for_samples (in_place F) rs acc h = Val (acc ++ rs, h') /\
          stored h' rs ds' /\
          length h' = length h /\
          (forall x, x ∉ rs -> h' !! x = h !! x)
    end.
Proof.
  induction rs as [|r rs IH]; intros ds h acc Hst Hnd.
  - inversion Hst; subst. cbn. exists h. rewrite app_nil_r.
    split; [reflexivity|]. split; [constructor|]. split; [reflexivity|auto].
  - inversion Hst as [|? d ? ds0 Hr Hst']; subst.
    apply NoDup_cons in Hnd as [Hnotin Hnd].
    cbn [mapM for_samples]. pose proof (in_place_run F h r d Hr) as Hb.
    destruct (F d) as [d'|e]; cbn [mbind res_bind].
    2:{ now apply bind_raise. }
    rewrite (bind_val _ _ h (<[r := d']> h) r) by exact Hb.
    assert (Hst1 : stored (<[r := d']> h) rs ds0).
    { eapply stored_ext; [exact Hst'|]. intros x Hx.
      apply list_lookup_insert_ne. intros ->. contradiction. }
    specialize (IH ds0 (<[r := d']> h) (acc ++ [r]) Hst1 Hnd).
    destruct (mapM F ds0) as [ds'|e]; cbn; [|exact IH].
    destruct IH as (h' & Hrun & Hst2 & Hlen & Hframe).
    exists h'. rewrite Hrun, <- app_assoc.
    split; [reflexivity|]. split; [|split].
    + constructor; [|exact Hst2].
      rewrite Hframe by exact Hnotin.
      apply list_lookup_insert_eq. eapply lookup_lt_Some, Hr.
    + now rewrite Hlen, length_insert.
    + intros x Hx. apply not_elem_of_cons in Hx as [Hxr Hx].
      rewrite Hframe by exact Hx. apply list_lookup_insert_ne. congruence.
Qed.

Lemma iloc0_cell r : snd r <> [] -> iloc0 r = Val (cell 0 r).
Proof. unfold iloc0, cell. destruct (snd r); [congruence|reflexivity]. Qed.

Lemma cum_rel_abund_loop_spec d m :
  Forall (fun r : Row => snd r <> []) (rows d) ->
  forall k acc,
    length acc = k -> k + m <= len d ->
    exists ext,
      cum_rel_abund_loop d (seq k m) acc = Val (acc ++ ext) /\
      length ext = m /\
      forall i r, k <= i < k + m -> rows d !! i = Some r ->
        match i with
        | O => (acc ++ ext) !! 0 = Some (cell 0 r)
        | S j => exists prev, (acc ++ ext) !! j = Some prev /\
                              (acc ++ ext) !! i = Some (cell 0 r + prev)%Q
        end.
Proof.
  intros Hne. induction m as [|m IH]; intros k acc Hlen Hle.
  - exists []. cbn. rewrite app_nil_r. split; [reflexivity|].
    split; [reflexivity|]. intros i r Hi. lia.
  - cbn [seq cum_rel_abund_loop]. unfold len in Hle.
    destruct (lookup_lt_is_Some_2 (rows d) k) as [r Hr]; [lia|].
    assert (Hr0 : iloc0 r = Val (cell 0 r)).
    { apply iloc0_cell. rewrite Forall_forall in Hne. apply Hne.
      eapply list_elem_of_lookup_2, Hr. }
    unfold iloc. rewrite Hr. cbn [mbind res_bind]. rewrite Hr0.
    cbn [mbind res_bind].
    destruct k as [|j]; cbn [Nat.ltb Nat.leb].
    + apply length_zero_iff_nil in Hlen as ->.
      destruct (IH 1 [cell 0 r]) as (ext & Hrun & Hext & Hrec);
        [reflexivity|unfold len; lia|].
      exists (cell 0 r :: ext). cbn [app] in *.
      split; [exact Hrun|]. split; [cbn; lia|].
      intros i x Hi Hx. destruct i as [|i].
      * cbn. congruence.
      * apply (Hrec (S i) x); [lia|exact Hx].
    + replace (S j - 1) with j by lia.
      destruct (lookup_lt_is_Some_2 acc j) as [prev Hprev]; [lia|].
      unfold list_get. rewrite Hprev. cbn [mbind res_bind].
      destruct (IH (S (S j)) (acc ++ [cell 0 r + prev]%Q))
        as (ext & Hrun & Hext & Hrec);
        [rewrite length_app; cbn; lia|unfold len; lia|].
      exists ((cell 0 r + prev)%Q :: ext).
      rewrite <- app_assoc in Hrun, Hrec. cbn [app] in Hrun, Hrec.
      split; [exact Hrun|]. split; [cbn; lia|].
      intros i x Hi Hx.
      destruct (decide (i = S j)) as [->|Hne'].
      * exists prev. split.
        -- now apply lookup_app_l_Some.
        -- rewrite Hr in Hx. injection Hx as <-.
           rewrite lookup_app_r by lia.
           replace (S j - length acc) with 0 by lia. reflexivity.
      * apply (Hrec i x); [lia|exact Hx].
Qed.

Lemma setitem_append name vals d :
  length vals = len d -> name ∉ columns d ->
  setitem name vals d =
    Val (mkDF (columns d ++ [name])
           (zip_with (fun (r : Row) v => (fst r, snd r ++ [v])) (rows d) vals)).
Proof.
  intros Hlen Hnotin. unfold setitem.
  rewrite Hlen, Nat.eqb_refl. cbn [negb].
  now rewrite positions_absent.
Qed.

Lemma add_cum_rel_abund_spec d :
  wf_df d -> columns d <> [] -> "Cum Rel Abund" ∉ columns d ->
  exists d', add_cum_rel_abund d = Val d' /\ cum_rel_abund_added d d'.
Proof.
  intros Hwf Hcols Hnotin. unfold add_cum_rel_abund.
  destruct (cum_rel_abund_loop_spec d (len d)) with (k := 0) (acc := @nil Q)
    as (cum & Hrun & Hlen & Hrec); [|reflexivity|lia|].
  { eapply Forall_impl; [exact Hwf|]. cbn. intros r Hr Hnil.
    rewrite Hnil in Hr. destruct (columns d); [congruence|discriminate]. }
  cbn [app] in Hrun, Hrec. rewrite Hrun. cbn [mbind res_bind].
  rewrite setitem_append by assumption.
  eexists. split; [reflexivity|]. split; [reflexivity|].
  exists cum. split; [exact Hlen|]. split; [|reflexivity].
  intros i r Hr. apply Hrec; [|exact Hr].
  apply lookup_lt_Some in Hr. unfold len. lia.
Qed.



(** ** Cumulative rank proportion *)

Lemma positions_nil_absent name cols k :
  positions name cols k = [] -> name ∉ cols.
Proof.
  revert k. induction cols as [|c cols IH]; intros k; cbn.
  - intros _ H. now apply elem_of_nil in H.
  - unfold str_eqb. case_bool_decide as Hc; [discriminate|].
    intros H. apply not_elem_of_cons. split; [congruence|eauto].
Qed.

Lemma set_cells_length name cols v cells :
  length (set_cells name cols v cells) = length cells.
Proof.
  revert cells. induction cols as [|c cols IH]; intros [|x xs]; cbn; auto.
Qed.

Lemma set_cells_nth name cols v cells p :
  length cells = length cols -> cols !! p = Some name ->
  nth p (set_cells name cols v cells) 0%Q = v.
Proof.
  revert cells p. induction cols as [|c cols IH]; intros [|x xs] p Hlen Hp;
    try discriminate.
  cbn in Hlen. destruct p as [|p]; cbn in *.
  - injection Hp as ->. unfold str_eqb. now rewrite bool_decide_eq_true_2.
  - apply IH; [lia|exact Hp].
Qed.

Lemma index_zip_with (f : Row -> Q -> Row) (rs : list Row) (vals : list Q) :
  (forall r v, fst (f r v) = fst r) -> length rs <= length vals ->
  map fst (zip_with f rs vals) = map fst rs.
Proof.
  intros Hf. revert vals.
  induction rs as [|r rs IH]; intros [|v vals] Hlen; cbn in *;
    try reflexivity; try lia.
  rewrite Hf. f_equal. apply IH. lia.
Qed.

(** What [df[name] = vals] leaves behind on a well-formed frame. *)
Lemma setitem_spec name vals d :
  wf_df d -> length vals = len d ->
  exists d' p,
    setitem name vals d = Val d' /\
    columns d' !! p = Some name /\
    index d' = index d /\
    wf_df d' /\
    (exists tl, columns d' = columns d ++ tl) /\
    (forall i r', rows d' !! i = Some r' -> vals !! i = Some (cell p r')).
Proof.
  intros Hwf Hlen. unfold setitem. rewrite Hlen, Nat.eqb_refl. cbn [negb].
  unfold wf_df, index, len in *. rewrite Forall_forall in Hwf.
  destruct (positions name (columns d) 0) as [|p ps] eqn:Hpos.
  - apply positions_nil_absent in Hpos.
    eexists. exists (length (columns d)). split; [reflexivity|].
    cbn [columns rows]. split; [|split; [|split; [|split]]].
    + rewrite lookup_app_r by lia. now rewrite Nat.sub_diag.
    + apply index_zip_with; [reflexivity|lia].
    + apply Forall_forall. intros r Hr.
      apply list_elem_of_lookup_1 in Hr as [i Hi].
      apply lookup_zip_with_Some in Hi as (x & v & -> & Hx & _).
      cbn. rewrite !length_app. cbn. f_equal. apply Hwf.
      eapply list_elem_of_lookup_2, Hx.
    + now exists [name].
    + intros i r' Hi.
      apply lookup_zip_with_Some in Hi as (x & v & -> & Hx & Hv).
      rewrite Hv. f_equal. unfold cell. cbn [snd].
      rewrite <- (Hwf x) by (eapply list_elem_of_lookup_2, Hx).
      rewrite app_nth2 by lia. now rewrite Nat.sub_diag.
  - assert (Hp : columns d !! p = Some name).
    { destruct (positions_elem name (columns d) 0 p) as [_ H].
      - rewrite Hpos. left.
      - now rewrite Nat.sub_0_r in H. }
    eexists. exists p. split; [reflexivity|].
    cbn [columns rows]. split; [exact Hp|]. split; [|split; [|split]].
    + apply index_zip_with; [reflexivity|lia].
    + apply Forall_forall. intros r Hr.
      apply list_elem_of_lookup_1 in Hr as [i Hi].
      apply lookup_zip_with_Some in Hi as (x & v & -> & Hx & _).
      cbn. rewrite set_cells_length. apply Hwf.
      eapply list_elem_of_lookup_2, Hx.
    + exists []. now rewrite app_nil_r.
    + intros i r' Hi.
      apply lookup_zip_with_Some in Hi as (x & v & -> & Hx & Hv).
      rewrite Hv. f_equal. unfold cell. cbn [snd]. symmetry.
      apply set_cells_nth; [|exact Hp].
      apply Hwf. eapply list_elem_of_lookup_2, Hx.
Qed.

Lemma cum_prop_trfs_loop_spec d m k acc :
  (m = 0 \/ 0 < len d) ->
  cum_prop_trfs_loop d (seq k m) acc =
    Val (acc ++ map (rank_proportion (len d)) (seq k m)).
Proof.
  revert k acc. induction m as [|m IH]; intros k acc Hm; cbn.
  - now rewrite app_nil_r.
  - unfold py_truediv.
    destruct (Z.eqb_spec (Z.of_nat (len d)) 0) as [H0|_]; [lia|].
    cbn [mbind res_bind]. rewrite IH by (right; lia).
    now rewrite <- app_assoc.
Qed.

Lemma rank_proportion_last m : 0 < m -> (rank_proportion m (pred m) == 1)%Q.
Proof.
  intros Hm. unfold rank_proportion.
  replace (Z.of_nat (pred m) + 1)%Z with (Z.of_nat m) by lia.
  apply Qmult_inv_r. unfold Qeq. cbn. lia.
Qed.

Lemma add_cum_prop_trfs_spec t :
  wf_df t ->
  exists df, add_cum_prop_trfs t = Val df /\ rank_proportion_added t df /\
             wf_df df /\ (exists tl, columns df = columns t ++ tl).
Proof.
  intros Hwf. unfold add_cum_prop_trfs.
  rewrite cum_prop_trfs_loop_spec by lia. cbn [app mbind res_bind].
  set (vals := map (rank_proportion (len t)) (seq 0 (len t))).
  assert (Hlen : length vals = len t).
  { unfold vals. now rewrite length_map, length_seq. }
  destruct (setitem_spec "Cum Prop TRFs" vals t Hwf Hlen)
    as (df & p & Hset & Hp & Hidx & Hwf' & Htl & Hcells).
  exists df. split; [exact Hset|]. split; [|split; [exact Hwf'|exact Htl]].
  split; [exact Hidx|]. exists p. split; [exact Hp|].
  assert (Hval : forall i r, rows df !! i = Some r ->
                             cell p r = rank_proportion (len t) i).
  { intros i r Hr. specialize (Hcells i r Hr). unfold vals in Hcells.
    change (map ?f ?l) with (f <$> l) in Hcells.
    rewrite list_lookup_fmap in Hcells.
    destruct (seq 0 (len t) !! i) as [j|] eqn:Hj; [|discriminate].
    apply lookup_seq in Hj as [-> _]. cbn in Hcells. congruence. }
  split; [exact Hval|].
  intros r Hlast. rewrite last_lookup in Hlast.
  assert (Hl : length (rows df) = len t).
  { unfold index in Hidx. unfold len.
    rewrite <- (length_map fst (rows df)), Hidx. apply length_map. }
  rewrite (Hval _ _ Hlast), Hl.
  apply rank_proportion_last.
  apply lookup_lt_Some in Hlast. lia.
Qed.

(** ** Invariants along the pipeline *)

Lemma mapM_inv {A B} (F : A -> res B) l l' :
  mapM F l = Val l' -> Forall2 (fun a b => F a = Val b) l l'.
Proof.
  revert l'. induction l as [|a l IH]; intros l'; cbn.
  - intros [= <-]. constructor.
  - destruct (F a) as [b|] eqn:Ha; cbn; [|discriminate].
    destruct (mapM F l) as [bs|]; cbn; [|discriminate].
    intros [= <-]. constructor; auto.
Qed.

Lemma Forall2_compose {A B C} (P : A -> B -> Prop) (Q : B -> C -> Prop)
    (R : A -> C -> Prop) l k m :
  (forall a b c, P a b -> Q b c -> R a c) ->
  Forall2 P l k -> Forall2 Q k m -> Forall2 R l m.
Proof.
  intros HR HP. revert m. induction HP; intros m HQ; inversion HQ; subst;
    constructor; eauto.
Qed.

Lemma Forall2_Forall_r {A B} (P : A -> B -> Prop) (Q : B -> Prop) l k :
  Forall2 P l k -> (forall a b, P a b -> Q b) -> Forall Q k.
Proof. induction 1; intros HQ; constructor; eauto. Qed.

Lemma ranked_frames sort_values d fs :
  ranked sort_values d = Val fs ->
  Forall2 (fun col f => wf_df f /\ columns f = [col]) (columns d) fs.
Proof.
  intros H. apply mapM_inv in H.
  eapply Forall2_impl; [exact H|]. cbn. intros col f Hf.
  destruct (loc_col d col) as [s|]; [|discriminate]. cbn in Hf.
  injection Hf as <-. split; [|reflexivity].
  unfold wf_df, to_frame. cbn. apply Forall_forall. intros r Hr.
  apply list_elem_of_In, in_map_iff in Hr as (lv & <- & _). reflexivity.
Qed.

Lemma setitem_length name vals d d' :
  setitem name vals d = Val d' -> length vals = len d.
Proof.
  unfold setitem. destruct (Nat.eqb_spec (length vals) (len d)); [auto|].
  discriminate.
Qed.

Lemma setitem_keeps name vals d d' :
  wf_df d -> setitem name vals d = Val d' ->
  wf_df d' /\ index d' = index d /\ exists tl, columns d' = columns d ++ tl.
Proof.
  intros Hwf Hset. pose proof (setitem_length _ _ _ _ Hset) as Hlen.
  destruct (setitem_spec name vals d Hwf Hlen)
    as (d1 & p & Hset1 & _ & Hidx & Hwf1 & Htl & _).
  rewrite Hset in Hset1. injection Hset1 as <-. auto.
Qed.

Lemma add_cum_rel_abund_keeps d d' :
  wf_df d -> add_cum_rel_abund d = Val d' ->
  wf_df d' /\ index d' = index d /\ exists tl, columns d' = columns d ++ tl.
Proof.
  intros Hwf. unfold add_cum_rel_abund.
  destruct (cum_rel_abund_loop _ _ _) as [cum|]; cbn; [|discriminate].
  now apply setitem_keeps.
Qed.

Lemma drop_keeps label d d' :
  drop label d = Val d' ->
  columns d' = columns d /\ forall r, r ∈ rows d' -> r ∈ rows d.
Proof.
  unfold drop. destruct (rows_at label (rows d)); [discriminate|].
  intros [= <-]. cbn. split; [reflexivity|].
  intros r Hr. now apply list_elem_of_filter in Hr as [_ Hr].
Qed.

Lemma over_one_loop_keeps col labels found fresh nf fr nf' :
  over_one_loop col labels found fresh nf = Val (fr, nf') ->
  columns nf' = columns nf /\ forall r, r ∈ rows nf' -> r ∈ rows nf.
Proof.
  revert found fresh nf. induction labels as [|l labels IH];
    intros found fresh nf; cbn.
  - intros [= <- <-]. auto.
  - destruct (lookup_cell _ l col) as [v|]; cbn; [|discriminate].
    destruct found.
    + destruct (drop l nf) as [nf1|] eqn:Hd; cbn; [|discriminate].
      intros H. apply IH in H as [Hc Hr].
      apply drop_keeps in Hd as [Hc1 Hr1].
      split; [congruence|auto].
    + destruct (gt_truth v _) as [[|]|]; cbn; [apply IH|apply IH|discriminate].
Qed.

Lemma truncated_keeps d d' :
  wf_df d -> truncated d = Val d' -> wf_df d' /\ columns d' = columns d.
Proof.
  intros Hwf. unfold truncated, over_one.
  destruct (over_one_loop _ _ _ _ _) as [[fr nf]|] eqn:H; cbn; [|discriminate].
  intros [= <-]. apply over_one_loop_keeps in H as [Hc Hr].
  split; [|exact Hc]. unfold wf_df in *. rewrite Hc.
  rewrite Forall_forall in *. auto.
Qed.

Lemma remove_zeros_loop_columns labels fresh d fr d' :
  remove_zeros_loop labels fresh d = Val (fr, d') -> columns d' = columns d.
Proof.
  revert fresh d. induction labels as [|l labels IH]; intros fresh d; cbn.
  - now intros [= <- <-].
  - destruct (sum_loc_row d l) as [total|]; cbn; [|discriminate].
    destruct (Qeq_bool total 0); [|apply IH].
    destruct (drop l d) as [d1|] eqn:Hd; cbn; [|discriminate].
    intros H. apply IH in H. apply drop_keeps in Hd as [Hc _]. congruence.
Qed.

Lemma pruned_columns input d :
  pruned input = Val d -> columns d = columns input.
Proof.
  unfold pruned.
  destruct (remove_zeros_loop _ _ _) as [[fr d1]|] eqn:H; cbn; [|discriminate].
  intros [= <-]. now apply remove_zeros_loop_columns in H.
Qed.

(** The truncated per-sample tables are well formed, one per sample
    column, each headed by its sample name. *)
Lemma truncated_curves_frames sort_values input ts :
  truncated_curves sort_values input = Val ts ->
  Forall2 (fun col t => wf_df t /\ titled col t) (columns input) ts.
Proof.
  unfold truncated_curves.
  destruct (pruned input) as [d1|] eqn:Hp; cbn; [|discriminate].
  destruct (ranked sort_values d1) as [fs|] eqn:Hr; cbn; [|discriminate].
  destruct (mapM add_cum_rel_abund fs) as [cs|] eqn:Hc; cbn; [|discriminate].
  intros Ht. apply pruned_columns in Hp. rewrite <- Hp.
  apply ranked_frames in Hr. apply mapM_inv in Hc, Ht.
  assert (Hcs : Forall2 (fun col c => wf_df c /\ titled col c) (columns d1) cs).
  { eapply Forall2_compose; [|exact Hr|exact Hc].
    cbn. intros col f c [Hwf Hcols] Hadd.
    destruct (add_cum_rel_abund_keeps f c Hwf Hadd) as (Hwf' & _ & tl & Htl).
    split; [exact Hwf'|]. exists tl. now rewrite Htl, Hcols. }
  eapply Forall2_compose; [|exact Hcs|exact Ht].
  cbn. intros col c t [Hwf Htit] Htr.
  destruct (truncated_keeps c t Hwf Htr) as [Hwf' Hcols].
  split; [exact Hwf'|]. destruct Htit as [tl Htl]. exists tl. congruence.
Qed.

Lemma run_value_inv sort_values input dfs plot gini_df :
  run_value sort_values input = Val (dfs, plot, gini_df) ->
  check_columns_loop input (columns input) = Val true /\
  exists ts,
    truncated_curves sort_values input = Val ts /\
    mapM add_cum_prop_trfs ts = Val dfs /\
    make_graph_loop dfs [] = Val plot /\
    make_gini_df dfs = Val gini_df.
Proof.
  unfold run_value.
  destruct (check_columns_loop _ _) as [[|]|]; cbn; try discriminate.
  destruct (truncated_curves _ _) as [ts|]; cbn; [|discriminate].
  destruct (mapM add_cum_prop_trfs ts) as [dfs'|] eqn:H1; cbn; [|discriminate].
  destruct (make_graph_loop dfs' []) as [plot'|] eqn:H2; cbn; [|discriminate].
  destruct (make_gini_df dfs') as [g|] eqn:H3; cbn; [|discriminate].
  intros [= <- <- <-]. split; [reflexivity|]. exists ts. auto.
Qed.

(** X19. In a run that returns, each returned sample table has the
    rows of the truncated curve and a column "Cum Prop TRFs" computed
    from them: with [m] the number of rows left by the truncation, the
    row at 0-based position [i] holds [(i + 1) / m], and the last row
    holds 1. *)
Theorem rank_proportion_after_truncation (sort_values : Series -> Series)
    (input : DataFrame) (h : heap) dfs plot gini_df :
  run_output sort_values input h = Val (dfs, plot, gini_df) ->
  exists ts,
    truncated_curves sort_values input = Val ts /\
    Forall2 rank_proportion_added ts dfs.
Proof.
  rewrite run_output_value. intros Hrun.
  apply run_value_inv in Hrun as (_ & ts & Hts & Hdfs & _).
  exists ts. split; [exact Hts|].
  apply truncated_curves_frames in Hts. apply mapM_inv in Hdfs.
  assert (Hwf : Forall wf_df ts).
  { eapply Forall2_Forall_r; [exact Hts|]. cbn. tauto. }
  clear Hts. induction Hdfs as [|t df ts dfs Ht _ IH]; [constructor|].
  inversion Hwf; subst. constructor; [|auto].
  destruct (add_cum_prop_trfs_spec t) as (df' & Hdf' & Hadded & _);
    [assumption|].
  congruence.
Qed.

Lemma rank_proportion_after_truncation_witness :
  exists dfs plot gini_df ts,
    run_output stable_sort_values table_trunc [] = Val (dfs, plot, gini_df) /\
    truncated_curves stable_sort_values table_trunc = Val ts /\
    Forall2 rank_proportion_added ts dfs.
Proof.
  assert (exists dfs plot gini_df,
            run_output stable_sort_values table_trunc [] =
              Val (dfs, plot, gini_df)) as (dfs & plot & gini_df & Hrun)
    by (vm_compute; eauto).
  exists dfs, plot, gini_df.
  destruct (rank_proportion_after_truncation _ _ _ _ _ _ Hrun)
    as (ts & Hts & Hadded).
  exists ts. auto.
Defined.

(** ** Inequality scorer *)

Lemma positions_singleton_NoDup cols k :
  (forall col, col ∈ cols -> exists p, positions col cols k = [p]) ->
  NoDup cols.
Proof.
  revert k. induction cols as [|c cols IH]; intros k Hall; [constructor|].
  apply NoDup_cons.
  assert (Hc : c ∉ cols).
  { destruct (Hall c) as [p Hp]; [left|]. cbn in Hp. unfold str_eqb in Hp.
    rewrite bool_decide_eq_true_2 in Hp by reflexivity.
    injection Hp as _ Hp. now apply positions_nil_absent in Hp. }
  split; [exact Hc|]. apply (IH (S k)). intros col Hcol.
  destruct (Hall col) as [p Hp]; [now right|]. cbn in Hp. unfold str_eqb in Hp.
  rewrite bool_decide_eq_false_2 in Hp by (intros ->; contradiction).
  eauto.
Qed.

Lemma check_columns_loop_visits d cs :
  check_columns_loop d cs = Val true ->
  forall col, col ∈ cs -> exists s, loc_col d col = Val s.
Proof.
  induction cs as [|c cs IH]; cbn; intros Hrun col Hcol.
  - now apply elem_of_nil in Hcol.
  - destruct (loc_col d c) as [s|] eqn:Hs; cbn in Hrun; [|discriminate].
    destruct (_ || _); [discriminate|].
    apply elem_of_cons in Hcol as [->|Hcol]; eauto.
Qed.

(** A table that passes [check_columns] has distinct column names. *)
Lemma check_columns_NoDup d :
  check_columns_loop d (columns d) = Val true -> NoDup (columns d).
Proof.
  intros Hrun. apply (positions_singleton_NoDup _ 0). intros col Hcol.
  destruct (check_columns_loop_visits d _ Hrun col Hcol) as [s Hs].
  unfold loc_col in Hs.
  destruct (positions col (columns d) 0) as [|p [|q ps]]; try discriminate.
  eauto.
Qed.

Lemma titles_loop_spec samples ts acc :
  Forall2 (fun df t => title_of df = Val t) samples ts ->
  titles_loop samples acc = Val (acc ++ ts).
Proof.
  intros H. revert acc. induction H as [|df t samples ts Ht _ IH]; intros acc.
  - cbn. now rewrite app_nil_r.
  - cbn. rewrite Ht. cbn. rewrite IH. now rewrite <- app_assoc.
Qed.

Lemma set_gini_fst title g tbl : map fst (set_gini title g tbl) = map fst tbl.
Proof.
  unfold set_gini. rewrite map_map. apply map_ext. intros [t r]. cbn.
  now destruct (str_eqb t title).
Qed.

Lemma set_gini_elem title g tbl :
  title ∈ map fst tbl -> (title, g) ∈ set_gini title g tbl.
Proof.
  intros Hin. apply list_elem_of_In, in_map_iff in Hin as ([t r] & Ht & Hin).
  cbn in Ht. subst t. apply list_elem_of_In, in_map_iff.
  exists (title, r). split; [|exact Hin].
  cbn. unfold str_eqb. now rewrite bool_decide_eq_true_2.
Qed.

Lemma set_gini_other title g tbl t r :
  t <> title -> (t, r) ∈ tbl -> (t, r) ∈ set_gini title g tbl.
Proof.
  intros Hne Hin. apply list_elem_of_In, in_map_iff.
  exists (t, r). split; [|now apply list_elem_of_In].
  cbn. unfold str_eqb. now rewrite bool_decide_eq_false_2.
Qed.

Lemma gini_loop_step col rest tbl out :
  gini_loop (col :: rest) tbl = Val out ->
  exists title g,
    title_of col = Val title /\ score col = Val g /\
    gini_loop rest (set_gini title g tbl) = Val out.
Proof.
  cbn [gini_loop]. unfold score, iloc_col0, title_of.
  destruct (columns col) as [|c cs]; cbn; [discriminate|].
  destruct (py_truediv _ _) as [ratio|]; cbn; [|discriminate].
  intros H. eauto.
Qed.

Lemma gini_loop_keeps samples ts tbl out t r :
  Forall2 (fun df t => title_of df = Val t) samples ts ->
  gini_loop samples tbl = Val out ->
  t ∉ ts -> (t, r) ∈ tbl -> (t, r) ∈ out.
Proof.
  intros HT. revert tbl. induction HT as [|df t' samples ts Ht _ IH];
    intros tbl Hrun Hnotin Hin.
  - cbn in Hrun. now injection Hrun as <-.
  - apply gini_loop_step in Hrun as (title & g & Htitle & _ & Hrun).
    apply not_elem_of_cons in Hnotin as [Hne Hnotin].
    apply (IH _ Hrun Hnotin). apply set_gini_other; [|exact Hin]. congruence.
Qed.

Lemma gini_loop_spec samples ts tbl out :
  Forall2 (fun df t => title_of df = Val t) samples ts ->
  NoDup ts -> (forall t, t ∈ ts -> t ∈ map fst tbl) ->
  gini_loop samples tbl = Val out ->
  Forall (fun df => exists title g,
            title_of df = Val title /\ score df = Val g /\ (title, g) ∈ out)
    samples.
Proof.
  intros HT. revert tbl. induction HT as [|df t samples ts Ht HT IH];
    intros tbl Hnd Hdom Hrun; [constructor|].
  apply NoDup_cons in Hnd as [Hnotin Hnd].
  apply gini_loop_step in Hrun as (title & g & Htitle & Hscore & Hrun).
  assert (title = t) as -> by congruence.
  constructor.
  - exists t, g. split; [exact Ht|]. split; [exact Hscore|].
    apply (gini_loop_keeps _ _ _ _ _ _ HT Hrun Hnotin).
    apply set_gini_elem, Hdom. left.
  - apply (IH (set_gini t g tbl) Hnd); [|exact Hrun].
    intros t' Ht'. rewrite set_gini_fst. apply Hdom. now right.
Qed.

Lemma make_gini_df_spec samples ts gini_df :
  Forall2 (fun df t => title_of df = Val t) samples ts ->
  NoDup ts ->
  make_gini_df samples = Val gini_df ->
  Forall (fun df => exists title g,
            title_of df = Val title /\ score df = Val g /\
            (title, g) ∈ gini_df) samples.
Proof.
  intros HT Hnd. unfold make_gini_df.
  rewrite (titles_loop_spec _ _ [] HT). cbn [app mbind res_bind].
  apply (gini_loop_spec _ _ _ _ HT Hnd).
  intros t Ht. unfold empty_gini_df. rewrite map_map. cbn.
  rewrite map_id. exact Ht.
Qed.

(** C1, as the specification words it, fails: on [table_trunc] sample A
    is ranked as [0.6; 0.4; 0] over the 3 bins of the pruned table, the
    truncation drops its last bin, and the Gini table reports [n = 2]
    for it. *)
Lemma gini_not_scored_on_ranked :
  exists dfs plot gini_df,
    run_output stable_sort_values table_trunc [] = Val (dfs, plot, gini_df) /\
    ~ scored_on_ranked stable_sort_values table_trunc gini_df.
Proof.
  eexists _, _, _. split; [vm_compute; reflexivity|].
  intros (d & fs & Hp & Hr & HF).
  vm_compute in Hp. injection Hp as <-.
  vm_compute in Hr. injection Hr as <-.
  apply Forall_cons_1 in HF as [(title & g & Ht & Hin & _ & Hn) _].
  vm_compute in Ht. injection Ht as <-.
  apply elem_of_cons in Hin as [Heq|Hin].
  - injection Heq as ->. vm_compute in Hn. discriminate.
  - apply elem_of_cons in Hin as [Heq|Hin]; [discriminate|].
    now apply elem_of_nil in Hin.
Qed.

(** C2 fails on the code.  A sample left with one row makes
    [make_gini_file] divide by zero: the run raises ZeroDivisionError
    and no coefficient is produced, neither for that sample nor for
    the others. *)
Theorem scorer_divides_by_zero_on_single_row :
  run_output stable_sort_values table_single [] = Raise ZeroDivisionError /\
  run_output stable_sort_values table_two [] = Raise ZeroDivisionError.
Proof. split; vm_compute; reflexivity. Qed.

(** The same for any list of sample tables that have a first column,
    as soon as one of them has exactly one row. *)
Lemma make_gini_df_single_row samples :
  Forall (fun d => columns d <> []) samples ->
  Exists (fun d => len d = 1) samples ->
  make_gini_df samples = Raise ZeroDivisionError.
Proof.
  intros Hcols Hone. unfold make_gini_df.
  assert (Ht : exists ts, Forall2 (fun df t => title_of df = Val t) samples ts).
  { clear Hone. induction Hcols as [|d ds Hd _ [ts IH]].
    - exists []. constructor.
    - unfold title_of at 1. destruct (columns d) as [|c cs] eqn:Hc; [congruence|].
      exists (c :: ts). constructor; [|exact IH].
      unfold title_of. now rewrite Hc. }
  destruct Ht as [ts Ht]. rewrite (titles_loop_spec _ _ [] Ht).
  cbn [app mbind res_bind]. clear Ht. generalize (empty_gini_df ts).
  induction Hone as [d ds Hd|d ds _ IH]; intros tbl;
    apply Forall_cons_1 in Hcols as [Hc Hcols]; cbn [gini_loop];
    unfold title_of, iloc_col0; destruct (columns d); try congruence;
    cbn [mbind res_bind]; unfold py_truediv.
  - rewrite Hd. reflexivity.
  - destruct (Z.of_nat (len d) - 1 =? 0)%Z; [reflexivity|].
    cbn [mbind res_bind]. now apply IH.
Qed.

(** C4 fails on the code.  [calculate_cumulative_relative_abundance]
    and [calculate_cumulative_prop_trf] return the references they
    were given and write the new column into the caller's table: after
    the call the object passed in is no longer what it was. *)
Theorem cumulative_stages_write_their_input :
  (exists h',
     calculate_cumulative_relative_abundance [0%nat] [sample_A_ranked]
       = Val ([0%nat], h') /\
     h' !! 0%nat <> Some sample_A_ranked) /\
  (exists h',
     calculate_cumulative_prop_trf [0%nat] [sample_A_cum] = Val ([0%nat], h') /\
     h' !! 0%nat <> Some sample_A_cum).
Proof.
  split; eexists; (split; [vm_compute; reflexivity|]); cbn; discriminate.
Qed.

(** ** Ranker *)

Section InsertionSortCorrect.
Context {A : Type} (leb : A -> A -> bool).
Hypothesis leb_total : forall a b, leb a b = true \/ leb b a = true.

Let R (a b : A) : Prop := leb a b = true.

Lemma insert_by_Permutation x l : Permutation (insert_by leb x l) (x :: l).
Proof.
  induction l as [|y l IH]; cbn; [reflexivity|].
  destruct (leb x y); [reflexivity|].
  rewrite IH. apply perm_swap.
Qed.

Lemma isort_by_Permutation l : Permutation (isort_by leb l) l.
Proof.
  induction l as [|x l IH]; cbn; [reflexivity|].
  rewrite insert_by_Permutation. now constructor.
Qed.

Lemma insert_by_HdRel a x l :
  R a x -> HdRel R a l -> HdRel R a (insert_by leb x l).
Proof.
  intros Hax Hl. destruct l as [|y l]; cbn; [now constructor|].
  destruct (leb x y); constructor; [exact Hax|].
  now inversion Hl.
Qed.

Lemma insert_by_Sorted x l : Sorted R l -> Sorted R (insert_by leb x l).
Proof.
  induction 1 as [|y l Hs IH Hhd]; cbn; [repeat constructor|].
  destruct (leb x y) eqn:Hxy.
  - constructor; [now constructor|]. now constructor.
  - constructor; [exact IH|]. apply insert_by_HdRel; [|exact Hhd].
    destruct (leb_total x y) as [H|H]; [congruence|exact H].
Qed.

Lemma isort_by_Sorted l : Sorted R (isort_by leb l).
Proof.
  induction l as [|x l IH]; cbn; [constructor|]. now apply insert_by_Sorted.
Qed.

End InsertionSortCorrect.

Lemma Sorted_weaken {A} (R R' : A -> A -> Prop) l :
  (forall a b, R a b -> R' a b) -> Sorted R l -> Sorted R' l.
Proof.
  intros HR. induction 1 as [|x l _ IH Hhd]; constructor; [exact IH|].
  destruct Hhd; constructor; auto.
Qed.

Lemma Qle_bool_total a b : Qle_bool a b = true \/ Qle_bool b a = true.
Proof.
  rewrite !Qle_bool_iff. destruct (Qlt_le_dec a b); [left|right]; lra.
Qed.

Lemma stable_sort_values_contract : sort_contract stable_sort_values.
Proof.
  intros s. unfold stable_sort_values. split.
  - apply isort_by_Permutation.
  - eapply Sorted_weaken; [|apply isort_by_Sorted].
    + intros a b H. now apply Qle_bool_iff in H.
    + intros a b. apply Qle_bool_total.
Qed.

Lemma reversed_sort_values_contract : sort_contract reversed_sort_values.
Proof.
  intros s. unfold reversed_sort_values. split.
  - rewrite reverse_Permutation. apply isort_by_Permutation.
  - eapply Sorted_weaken; [|apply Sorted_reverse, isort_by_Sorted].
    + intros a b H. unfold flip in H. now apply Qle_bool_iff in H.
    + intros a b. apply Qle_bool_total.
Qed.

Lemma NoDup_loc_col d col :
  NoDup (columns d) -> col ∈ columns d -> exists s, loc_col d col = Val s.
Proof.
  intros Hnd Hin. apply list_elem_of_lookup_1 in Hin as [p Hp].
  rewrite (loc_col_unique d col p Hnd Hp). eauto.
Qed.

(** C3, as the program has it.  Whatever [sort_values] does within its
    documented contract, [sort_bins] on a table with distinct sample
    names builds one new single-column table per sample column, which
    holds the entries of that column rearranged in non-increasing order
    of abundance.  The order of bins of equal abundance is left to
    [sort_values]. *)
Theorem sort_bins_sorted_permutation (sort_values : Series -> Series)
    (h : heap) (df : ref) (d : DataFrame) :
  sort_contract sort_values ->
  h !! df = Some d ->
  NoDup (columns d) ->
  exists fs,
    sort_bins sort_values df h =
      Val (seq (length h) (length fs), h ++ fs) /\
    Forall2 (ranking_of d) (columns d) fs.
Proof.
  intros Hsort Hdf Hnd. unfold sort_bins.
  rewrite (bind_val _ _ h h d) by now apply deref_val.
  rewrite sort_bins_loop_spec.
  destruct (mapM_total
              (fun col => to_frame col ∘ sort_values <$> loc_col d col)
              (ranking_of d) (columns d)) as (fs & HM & HR).
  { apply Forall_forall. intros col Hcol.
    destruct (NoDup_loc_col d col Hnd Hcol) as [s Hs].
    rewrite Hs. cbn. eexists. split; [reflexivity|].
    exists s, (sort_values s). destruct (Hsort s). auto. }
  rewrite HM. exists fs. auto.
Qed.

Lemma sort_bins_sorted_permutation_witness :
  exists fs,
    sort_bins stable_sort_values 0 [table_AB] =
      Val (seq (length [table_AB]) (length fs), [table_AB] ++ fs) /\
    Forall2 (ranking_of table_AB) (columns table_AB) fs.
Proof.
  apply (sort_bins_sorted_permutation stable_sort_values [table_AB] 0 table_AB).
  - apply stable_sort_values_contract.
  - reflexivity.
  - apply (bool_decide_unpack _). vm_compute. exact I.
Defined.

(** C3, as the specification words it, fails: [reversed_sort_values]
    meets the contract of [sort_values], and with it [sort_bins] ranks
    sample B of [table_AB] as b1, b3, b2, while b2 comes before b3 in
    the table and both have abundance 0.33. *)
Lemma ranker_reorders_ties :
  sort_contract reversed_sort_values /\
  exists fs,
    sort_bins reversed_sort_values 0 [table_AB] =
      Val ([1; 2], [table_AB] ++ fs) /\
    ~ Forall2 (stable_ranking_of table_AB) (columns table_AB) fs.
Proof.
  split; [apply reversed_sort_values_contract|].
  eexists. split; [vm_compute; reflexivity|].
  intros HF. apply Forall2_cons_1 in HF as [_ HF].
  apply Forall2_cons_1 in HF as [(s & out & Hs & Hf & _ & _ & Htie) _].
  vm_compute in Hs. injection Hs as <-.
  unfold to_frame in Hf. injection Hf as Hout.
  destruct out as [|[l1 v1] [|[l2 v2] [|[l3 v3] [|]]]]; try discriminate.
  cbn in Hout. injection Hout as <- <- <- <- <- <-.
  destruct (Htie 1 2 _ _ ltac:(lia) eq_refl eq_refl) as (i' & j' & Hlt & Hi & Hj);
    [reflexivity|].
  destruct i' as [|[|[|i']]]; try discriminate;
    destruct j' as [|[|[|j']]]; try discriminate; lia.
Qed.

(** * Further properties of the program *)

(** ** [make_gini_file] *)

Lemma gini_loop_total samples :
  Forall (fun d => columns d <> [] /\ len d <> 1) samples ->
  forall tbl, exists out,
    gini_loop samples tbl = Val out /\ map fst out = map fst tbl.
Proof.
  induction 1 as [|d ds [Hc Hn] _ IH]; intros tbl; cbn [gini_loop].
  - now exists tbl.
  - unfold title_of, iloc_col0. destruct (columns d) as [|c cs]; [congruence|].
    cbn [mbind res_bind]. unfold py_truediv.
    destruct (Z.eqb_spec (Z.of_nat (len d) - 1) 0) as [H0|_]; [lia|].
    cbn [mbind res_bind].
    match goal with |- context [gini_loop ds ?t] =>
      destruct (IH t) as (out & Hrun & Hfst) end.
    exists out. split; [exact Hrun|]. now rewrite Hfst, set_gini_fst.
Qed.

Lemma titles_exist samples :
  Forall (fun d => columns d <> []) samples ->
  exists ts, Forall2 (fun df t => title_of df = Val t) samples ts.
Proof.
  induction 1 as [|d ds Hd _ [ts IH]].
  - exists []. constructor.
  - unfold title_of at 1. destruct (columns d) as [|c cs] eqn:Hc; [congruence|].
    exists (c :: ts). constructor; [|exact IH].
    unfold title_of. now rewrite Hc.
Qed.

(** X1. When every sample table has a first column and a number of
    rows other than 1, [make_gini_file] returns without touching the
    store, and its table has exactly one row per sample, in the order
    of the samples, labelled with the samples' first column names. *)
Theorem make_gini_file_one_row_per_sample (h : heap) (samples : list ref)
    (ds : list DataFrame) :
  stored h samples ds ->
  Forall (fun d => columns d <> [] /\ len d <> 1) ds ->
  exists gini_df,
    make_gini_file samples h = Val (gini_df, h) /\
    Forall2 (fun d (tr : string * GiniRow) => title_of d = Val (fst tr))
      ds gini_df.
Proof.
  intros Hst Hds. unfold make_gini_file.
  rewrite (read_only_spec make_gini_df h samples ds Hst).
  destruct (titles_exist ds) as [ts Hts].
  { eapply Forall_impl; [exact Hds|]. cbn. tauto. }
  unfold make_gini_df. rewrite (titles_loop_spec _ _ [] Hts).
  cbn [app mbind res_bind].
  destruct (gini_loop_total ds Hds (empty_gini_df ts)) as (out & Hrun & Hfst).
  rewrite Hrun. exists out. split; [reflexivity|].
  assert (Hout : map fst out = ts).
  { rewrite Hfst. unfold empty_gini_df. rewrite map_map. cbn. apply map_id. }
  clear -Hts Hout. revert out Hout.
  induction Hts as [|d t ds ts Ht _ IH]; intros [|[t' r] out] Hout;
    try discriminate; [constructor|].
  cbn in Hout. injection Hout as -> Hout. constructor; [exact Ht|auto].
Qed.

Lemma make_gini_file_one_row_per_sample_witness :
  exists gini_df,
    make_gini_file [0] [sample_A_cum] = Val (gini_df, [sample_A_cum]) /\
    Forall2 (fun d (tr : string * GiniRow) => title_of d = Val (fst tr))
      [sample_A_cum] gini_df.
Proof.
  apply (make_gini_file_one_row_per_sample [sample_A_cum] [0] [sample_A_cum]).
  - repeat constructor.
  - apply Forall_cons_2; [|constructor]. split; [discriminate|].
    vm_compute. discriminate.
Defined.

(** X2. When every sample table has a first column and one of them has
    exactly one row, [make_gini_file] raises ZeroDivisionError: no
    table is produced, whatever the other samples are. *)
Theorem make_gini_file_single_row_raises (h : heap) (samples : list ref)
    (ds : list DataFrame) :
  stored h samples ds ->
  Forall (fun d => columns d <> []) ds ->
  Exists (fun d => len d = 1) ds ->
  make_gini_file samples h = Raise ZeroDivisionError.
Proof.
  intros Hst Hcols Hone. unfold make_gini_file.
  rewrite (read_only_spec make_gini_df h samples ds Hst).
  now rewrite (make_gini_df_single_row ds Hcols Hone).
Qed.

Lemma make_gini_file_single_row_raises_witness :
  make_gini_file [0; 1] [sample_A_cum; table_single] = Raise ZeroDivisionError.
Proof.
  apply (make_gini_file_single_row_raises [sample_A_cum; table_single] [0; 1]
           [sample_A_cum; table_single]).
  - repeat constructor.
  - repeat constructor; discriminate.
  - apply Exists_cons_tl, Exists_cons_hd. reflexivity.
Defined.

(** X3. A sample table without rows does not make [make_gini_file]
    fail: its row of the Gini table holds NaN for the Gini coefficient,
    NaN for the corrected one and [n = 0]. *)
Theorem make_gini_df_empty_sample (d : DataFrame) (title : string) :
  rows d = [] ->
  title_of d = Val title ->
  make_gini_df [d] = Val [(title, mkGini NaN NaN (Finite 0))].
Proof.
  intros Hrows Ht. unfold make_gini_df. cbn [titles_loop]. rewrite Ht.
  cbn [mbind res_bind app titles_loop empty_gini_df map gini_loop].
  rewrite Ht. cbn [mbind res_bind]. unfold iloc_col0, title_of in *.
  destruct (columns d); [discriminate|]. injection Ht as ->.
  unfold len. rewrite Hrows. cbn.
  unfold str_eqb. now rewrite bool_decide_eq_true_2.
Qed.

Lemma make_gini_df_empty_sample_witness :
  make_gini_df [mkDF ["A"] []] = Val [("A", mkGini NaN NaN (Finite 0))].
Proof.
  apply (make_gini_df_empty_sample (mkDF ["A"] []) "A"); reflexivity.
Defined.

(** ** [calculate_gini] *)

Lemma fold_left_Qplus_acc l a :
  (fold_left Qplus l a == a + fold_left Qplus l 0)%Q.
Proof.
  revert a. induction l as [|x l IH]; intros a; cbn.
  - ring.
  - rewrite (IH (a + x)%Q), (IH (0 + x)%Q). ring.
Qed.

Lemma py_sum_cons x l : (py_sum (x :: l) == x + py_sum l)%Q.
Proof. unfold py_sum. cbn. rewrite fold_left_Qplus_acc. ring. Qed.

Lemma py_sum_app l1 l2 : (py_sum (l1 ++ l2) == py_sum l1 + py_sum l2)%Q.
Proof.
  induction l1 as [|x l1 IH]; cbn [app].
  - unfold py_sum at 2. cbn. ring.
  - rewrite !py_sum_cons, IH. ring.
Qed.

Lemma py_sum_all_zero l : Forall (fun q => q == 0)%Q l -> (py_sum l == 0)%Q.
Proof.
  induction 1 as [|x l Hx _ IH]; [reflexivity|].
  rewrite py_sum_cons, Hx, IH. ring.
Qed.

Lemma py_sum_nonneg l : Forall (fun q => 0 <= q)%Q l -> (0 <= py_sum l)%Q.
Proof.
  induction 1 as [|x l Hx _ IH]; [unfold py_sum; cbn; lra|].
  rewrite py_sum_cons. lra.
Qed.

Lemma diffs_length (y x : list Q) :
  length (flat_map (fun a => map (fun b => Qabs (a - b)) y) x)
  = length x * length y.
Proof.
  induction x as [|a x IH]; [reflexivity|].
  cbn [flat_map length]. rewrite length_app, length_map, IH. lia.
Qed.

Lemma abs_diffs_length x : length (abs_diffs x) = length x * length x.
Proof. apply diffs_length. Qed.

Lemma inject_nat_pos m : 0 < m -> (0 < inject_Z (Z.of_nat m))%Q.
Proof. intros Hm. unfold Qlt. cbn. lia. Qed.

(** On a non-empty array whose sum is not zero the coefficient is the
    finite number of the formula. *)
Lemma calculate_gini_finite x :
  x <> [] -> ~ (py_sum x == 0)%Q ->
  calculate_gini x =
    Finite (0.5 * (py_sum (abs_diffs x)
                   / inject_Z (Z.of_nat (length (abs_diffs x)))
                   / (py_sum x / inject_Z (Z.of_nat (length x)))))%Q.
Proof.
  intros Hne Hsum. unfold calculate_gini, np_mean.
  destruct x as [|a x]; [congruence|].
  destruct (abs_diffs (a :: x)) as [|d ds] eqn:Hd.
  { apply (f_equal length) in Hd. rewrite abs_diffs_length in Hd.
    cbn in Hd. lia. }
  cbn [np_div].
  destruct (Qeq_bool _ 0) eqn:Hz; [|reflexivity].
  exfalso. apply Hsum. apply Qeq_bool_iff in Hz.
  set (nq := inject_Z (Z.of_nat (length (a :: x)))) in *.
  assert (Hn : ~ (nq == 0)%Q).
  { assert (Hpos : (0 < nq)%Q) by (apply inject_nat_pos; cbn; lia).
    intros H0. rewrite H0 in Hpos. now apply Qlt_irrefl in Hpos. }
  rewrite <- (Qmult_div_r (py_sum (a :: x)) nq Hn), Hz. ring.
Qed.

Lemma abs_diffs_all_zero v x :
  Forall (fun a => a == v)%Q x -> Forall (fun q => q == 0)%Q (abs_diffs x).
Proof.
  intros Hx. unfold abs_diffs. apply Forall_forall. intros q Hq.
  apply list_elem_of_In, in_flat_map in Hq as (a & Ha & Hq).
  apply in_map_iff in Hq as (b & <- & Hb).
  rewrite Forall_forall in Hx.
  assert (Ha' : (a == v)%Q) by now apply Hx, list_elem_of_In.
  assert (Hb' : (b == v)%Q) by now apply Hx, list_elem_of_In.
  rewrite Ha', Hb'.
  assert (H0 : (v - v == 0)%Q) by ring.
  rewrite H0. reflexivity.
Qed.

Lemma py_sum_constant v x :
  Forall (fun a => a == v)%Q x ->
  (py_sum x == inject_Z (Z.of_nat (length x)) * v)%Q.
Proof.
  induction 1 as [|a x Ha _ IH].
  - unfold py_sum. cbn. ring.
  - rewrite py_sum_cons, Ha, IH. cbn [length].
    rewrite Nat2Z.inj_succ, <- Z.add_1_r, inject_Z_plus. ring.
Qed.

(** X4. When all values are equal and not zero, the Gini coefficient
    is a finite number equal to 0. *)
Theorem calculate_gini_equal_values (v : Q) (x : list Q) :
  x <> [] ->
  ~ (v == 0)%Q ->
  Forall (fun a => a == v)%Q x ->
  exists q, calculate_gini x = Finite q /\ (q == 0)%Q.
Proof.
  intros Hne Hv Hx.
  assert (Hlen : (0 < inject_Z (Z.of_nat (length x)))%Q).
  { apply inject_nat_pos. destruct x; [congruence|cbn; lia]. }
  assert (Hsum : ~ (py_sum x == 0)%Q).
  { rewrite (py_sum_constant v x Hx). intros H.
    apply Qmult_integral in H as [H|H]; [lra|contradiction]. }
  rewrite (calculate_gini_finite x Hne Hsum). eexists. split; [reflexivity|].
  rewrite (py_sum_all_zero _ (abs_diffs_all_zero v x Hx)).
  unfold Qdiv. ring.
Qed.

Lemma calculate_gini_equal_values_witness :
  exists q, calculate_gini [0.25; 0.25; 0.25; 0.25]%Q = Finite q /\ (q == 0)%Q.
Proof.
  apply (calculate_gini_equal_values 0.25%Q).
  - discriminate.
  - intros H. vm_compute in H. discriminate.
  - repeat constructor.
Defined.

Lemma Qabs_diff_le a b : (0 <= a -> 0 <= b -> Qabs (a - b) <= a + b)%Q.
Proof. intros Ha Hb. apply Qabs_case; intros; lra. Qed.

Lemma row_diffs_bound a x :
  (0 <= a)%Q -> Forall (fun q => 0 <= q)%Q x ->
  (0 <= py_sum (map (fun b => Qabs (a - b)) x) /\
   py_sum (map (fun b => Qabs (a - b)) x)
     <= inject_Z (Z.of_nat (length x)) * a + py_sum x)%Q.
Proof.
  intros Ha. induction 1 as [|b x Hb _ [IH0 IH]]; cbn [map length].
  - unfold py_sum. cbn [fold_left].
    change (inject_Z (Z.of_nat 0)) with 0%Q. split; lra.
  - rewrite !py_sum_cons, Nat2Z.inj_succ, <- Z.add_1_r, inject_Z_plus.
    pose proof (Qabs_diff_le a b Ha Hb). pose proof (Qabs_nonneg (a - b)).
    change (inject_Z 1) with 1%Q.
    set (nq := inject_Z (Z.of_nat (length x))) in *.
    set (t := py_sum (map (fun b0 => Qabs (a - b0)) x)) in *.
    set (d := Qabs (a - b)) in *. split; lra.
Qed.

Lemma abs_diffs_bound y x :
  Forall (fun q => 0 <= q)%Q y -> Forall (fun q => 0 <= q)%Q x ->
  (0 <= py_sum (flat_map (fun a => map (fun b => Qabs (a - b)) y) x) /\
   py_sum (flat_map (fun a => map (fun b => Qabs (a - b)) y) x)
     <= inject_Z (Z.of_nat (length y)) * py_sum x
        + inject_Z (Z.of_nat (length x)) * py_sum y)%Q.
Proof.
  intros Hy. induction 1 as [|a x Ha _ [IH0 IH]]; cbn [flat_map length].
  - unfold py_sum at 1 2 3. cbn [fold_left].
    change (inject_Z (Z.of_nat 0)) with 0%Q. split; lra.
  - rewrite py_sum_app, py_sum_cons, Nat2Z.inj_succ, <- Z.add_1_r,
      inject_Z_plus.
    destruct (row_diffs_bound a y Ha Hy) as [H0 H1].
    pose proof (py_sum_nonneg y Hy) as HSy.
    change (inject_Z 1) with 1%Q.
    set (ny := inject_Z (Z.of_nat (length y))) in *.
    set (nx := inject_Z (Z.of_nat (length x))) in *.
    set (t := py_sum (flat_map _ x)) in *.
    set (r := py_sum (map _ y)) in *.
    set (Sy := py_sum y) in *. set (Sx := py_sum x) in *.
    split; lra.
Qed.

(** X5. On non-negative values that do not all vanish, the Gini
    coefficient is a finite number between 0 and 1. *)
Theorem calculate_gini_bounds (x : list Q) :
  Forall (fun q => 0 <= q)%Q x ->
  ~ (py_sum x == 0)%Q ->
  exists q, calculate_gini x = Finite q /\ (0 <= q /\ q <= 1)%Q.
Proof.
  intros Hx Hsum.
  assert (Hne : x <> []) by (intros ->; now apply Hsum).
  rewrite (calculate_gini_finite x Hne Hsum). eexists. split; [reflexivity|].
  rewrite abs_diffs_length, Nat2Z.inj_mul, inject_Z_mult.
  set (nq := inject_Z (Z.of_nat (length x))).
  assert (Hn : (0 < nq)%Q).
  { apply inject_nat_pos. destruct x; [congruence|cbn; lia]. }
  assert (HS : (0 < py_sum x)%Q).
  { pose proof (py_sum_nonneg x Hx). destruct (Qlt_le_dec 0 (py_sum x)); [assumption|].
    exfalso. apply Hsum. lra. }
  destruct (abs_diffs_bound x x Hx Hx) as [HT0 HT]. fold (abs_diffs x) in HT0, HT.
  fold nq in HT. set (T := py_sum (abs_diffs x)) in *. set (S := py_sum x) in *.
  assert (Heq : (0.5 * (T / (nq * nq) / (S / nq)) == T / (2 * (nq * S)))%Q).
  { field. repeat split; lra. }
  rewrite Heq.
  assert (Hden : (0 < 2 * (nq * S))%Q).
  { apply Qmult_lt_0_compat; [lra|]. now apply Qmult_lt_0_compat. }
  split.
  - apply Qle_shift_div_l; [exact Hden|]. lra.
  - apply Qle_shift_div_r; [exact Hden|]. lra.
Qed.

Lemma calculate_gini_bounds_witness :
  exists q, calculate_gini [0.5; 0.3; 0.2]%Q = Finite q /\ (0 <= q /\ q <= 1)%Q.
Proof.
  apply calculate_gini_bounds.
  - repeat constructor; lra.
  - intros H. vm_compute in H. discriminate.
Defined.

(** ** [remove_zeros] on repeated bin labels *)

Lemma rows_at_app label l1 l2 :
  rows_at label (l1 ++ l2) = rows_at label l1 ++ rows_at label l2.
Proof. unfold rows_at. apply filter_app. Qed.

Lemma rows_at_absent label rs : label ∉ map fst rs -> rows_at label rs = [].
Proof.
  intros Hnotin. apply filter_none. intros r Hr Heq. apply Hnotin.
  rewrite <- Heq. apply list_elem_of_fmap. now exists r.
Qed.

Lemma rows_at_present label rs :
  label ∈ map fst rs -> exists r rest, rows_at label rs = r :: rest.
Proof.
  intros Hin. apply list_elem_of_fmap in Hin as (r & -> & Hr).
  destruct (rows_at (fst r) rs) as [|x rest] eqn:Hx; [|eauto].
  exfalso. unfold rows_at in Hx.
  exact (filter_nil_not_elem_of _ rs r Hx eq_refl Hr).
Qed.

Lemma rows_only pre r suf :
  fst r ∉ map fst pre -> fst r ∉ map fst suf ->
  rows_at (fst r) (pre ++ r :: suf) = [r] /\
  filter (fun x : Row => fst x <> fst r) (pre ++ r :: suf) = pre ++ suf.
Proof.
  intros Hpre Hsuf. split.
  - pose proof (rows_at_absent _ _ Hpre) as H1.
    pose proof (rows_at_absent _ _ Hsuf) as H2.
    unfold rows_at in *.
    rewrite filter_app, filter_cons_True by reflexivity.
    now rewrite H1, H2.
  - rewrite filter_app, filter_cons_False by tauto.
    f_equal; apply filter_all; intros x Hx Heq;
      [apply Hpre|apply Hsuf]; rewrite <- Heq; apply list_elem_of_fmap;
      now exists x.
Qed.

Lemma remove_zeros_loop_repeated cols pre suf fresh :
  cols <> [] ->
  (forall l, l ∈ map fst pre -> l ∉ map fst suf) ->
  ~ NoDup (map fst suf) ->
  remove_zeros_loop (map fst suf) fresh (mkDF cols (pre ++ suf))
  = Raise TypeError.
Proof.
  intros Hcols. revert pre fresh.
  induction suf as [|r suf IH]; intros pre fresh Hdisj Hdup.
  - exfalso. apply Hdup. constructor.
  - cbn [map remove_zeros_loop]. unfold sum_loc_row. cbn [rows columns].
    destruct (decide (fst r ∈ map fst suf)) as [Hin|Hnotin].
    + destruct (rows_at_present _ _ Hin) as (x & rest & Hx).
      rewrite rows_at_app. change (r :: suf) with ([r] ++ suf).
      rewrite rows_at_app, Hx. unfold rows_at at 2.
      rewrite filter_cons_True by reflexivity. cbn [filter list_filter app].
      destruct (rows_at (fst r) pre) as [|p [|q ps]]; cbn [app];
        (destruct cols; [congruence|reflexivity]).
    + assert (Hpre : fst r ∉ map fst pre).
      { intros Hp. apply (Hdisj _ Hp). left. }
      destruct (rows_only pre r suf Hpre Hnotin) as [-> Hdrop].
      cbn [mbind res_bind].
      assert (Hdup' : ~ NoDup (map fst suf)).
      { intros Hnd. apply Hdup. cbn. now apply NoDup_cons. }
      destruct (Qeq_bool (py_sum (snd r)) 0).
      * unfold drop. cbn [rows columns].
        rewrite (proj1 (rows_only pre r suf Hpre Hnotin)), Hdrop.
        cbn [mbind res_bind]. apply IH; [|exact Hdup'].
        intros l Hl Hl'. apply (Hdisj l Hl). now right.
      * specialize (IH (pre ++ [r]) fresh).
        rewrite <- app_assoc in IH. cbn [app] in IH. apply IH; [|exact Hdup'].
        intros l Hl. rewrite map_app in Hl. cbn in Hl.
        apply elem_of_app in Hl as [Hl|Hl].
        -- intros Hl'. apply (Hdisj l Hl). now right.
        -- apply list_elem_of_singleton in Hl as ->. exact Hnotin.
Qed.

(** X6. On a table with at least one column in which some bin label
    occurs twice, [remove_zeros] raises TypeError: [df.loc[label]] is
    then a table and [sum] cannot add its column names. *)
Theorem remove_zeros_repeated_label_raises (h : heap) (df : ref)
    (d : DataFrame) :
  h !! df = Some d ->
  columns d <> [] ->
  ~ NoDup (index d) ->
  remove_zeros df h = Raise TypeError.
Proof.
  intros Hdf Hcols Hdup. unfold remove_zeros.
  rewrite (rebound_run _ h df d Hdf).
  destruct d as [cols rs]. unfold index in *. cbn [rows columns] in *.
  pose proof (remove_zeros_loop_repeated cols [] rs false Hcols) as H.
  cbn [app] in H. rewrite H; [reflexivity| |exact Hdup].
  intros l Hl. now apply elem_of_nil in Hl.
Qed.

Lemma remove_zeros_repeated_label_raises_witness :
  remove_zeros 0 [mkDF ["A"] [("b1", [0.5%Q]); ("b1", [0.5%Q])]]
  = Raise TypeError.
Proof.
  apply (remove_zeros_repeated_label_raises _ 0
           (mkDF ["A"] [("b1", [0.5%Q]); ("b1", [0.5%Q])])).
  - reflexivity.
  - discriminate.
  - intros Hnd. apply NoDup_cons in Hnd as [Hnotin _]. apply Hnotin. left.
Defined.

(** ** [check_columns] and the exit of [run] *)

(** X7. [check_columns] never answers [True] on a table in which two
    columns carry the same name: when it answers [True] the column
    names are pairwise distinct, and the store is as it was. *)
Theorem check_columns_true_distinct_names (h h' : heap) (df : ref)
    (d : DataFrame) :
  h !! df = Some d ->
  check_columns df h = Val (true, h') ->
  NoDup (columns d) /\ h' = h.
Proof.
  intros Hdf. rewrite (check_columns_run h df d Hdf).
  destruct (check_columns_loop d (columns d)) as [ok|] eqn:Hck; [|discriminate].
  intros [= -> <-]. split; [|reflexivity]. now apply check_columns_NoDup.
Qed.

Lemma check_columns_true_distinct_names_witness :
  NoDup (columns table_AB) /\ [table_AB] = [table_AB].
Proof.
  apply (check_columns_true_distinct_names [table_AB] [table_AB] 0 table_AB).
  - reflexivity.
  - vm_compute. reflexivity.
Defined.

(** X8. When the names of the sample columns are distinct and the sum
    of one column lies outside [0.9999, 1.0001], [run] raises
    SystemExit with status 1; no later stage is executed. *)
Theorem run_exits_when_out_of_tolerance (sort_values : Series -> Series)
    (input : DataFrame) (h : heap) (p : nat) (col : string) :
  NoDup (columns input) ->
  columns input !! p = Some col ->
  ~ in_tolerance (py_sum (column_cells p input)) ->
  run sort_values input h = Raise (SystemExit 1).
Proof.
  intros Hnd Hp Hout. unfold run.
  set (h0 := h ++ [input]).
  assert (Hr0 : h0 !! length h = Some input).
  { unfold h0. rewrite lookup_app_r by lia. now rewrite Nat.sub_diag. }
  rewrite (bind_val _ _ h h0 (length h)) by reflexivity.
  destruct (check_columns_loop_spec input (columns input) 0 Hnd)
    as (ok & Hrun & Hok); [now intros i c Hi|].
  rewrite (bind_val _ _ h0 h0 ok)
    by (rewrite (check_columns_run h0 _ input Hr0); now rewrite Hrun).
  destruct ok; [|reflexivity].
  exfalso. apply Hout. now apply (proj1 Hok eq_refl p col).
Qed.

Lemma run_exits_when_out_of_tolerance_witness :
  run stable_sort_values table_half [] = Raise (SystemExit 1).
Proof.
  apply (run_exits_when_out_of_tolerance stable_sort_values table_half [] 0 "A").
  - apply (bool_decide_unpack _). vm_compute. exact I.
  - reflexivity.
  - intros [Hlo _]. vm_compute in Hlo. now apply Hlo.
Defined.

(** ** Truncating twice *)

Lemma keep_through_first_idem over rs :
  keep_through_first over (keep_through_first over rs)
  = keep_through_first over rs.
Proof.
  induction rs as [|r rs IH]; [reflexivity|]. cbn.
  destruct (over r) eqn:Hr; cbn; rewrite Hr; [reflexivity|now rewrite IH].
Qed.

Lemma keep_through_first_prefix over rs :
  exists rest, rs = keep_through_first over rs ++ rest.
Proof.
  induction rs as [|r rs [rest IH]]; [now exists []|]. cbn.
  destruct (over r).
  - now exists rs.
  - exists rest. cbn. now rewrite <- IH.
Qed.

Lemma drop_shrinks label d d' :
  drop label d = Val d' -> length (rows d') < length (rows d).
Proof.
  unfold drop. destruct (rows_at label (rows d)) as [|x xs] eqn:Hx;
    [discriminate|]. intros [= <-]. cbn [rows].
  pose proof (filter_app_complement (fun r : Row => fst r = label) (rows d))
    as Hperm.
  apply Permutation_length in Hperm. rewrite length_app in Hperm.
  unfold rows_at in Hx. rewrite Hx in Hperm. cbn [length] in Hperm.
  unfold not in *. lia.
Qed.

Lemma over_one_loop_fresh col labels found fresh nf fr nf' :
  over_one_loop col labels found fresh nf = Val (fr, nf') ->
  length (rows nf') <= length (rows nf) /\
  (fr = true -> fresh = true \/ length (rows nf') < length (rows nf)).
Proof.
  revert found fresh nf. induction labels as [|l labels IH];
    intros found fresh nf; cbn [over_one_loop].
  - intros [= <- <-]. auto.
  - destruct (lookup_cell _ l col) as [v|]; cbn [mbind res_bind];
      [|discriminate].
    destruct found.
    + destruct (drop l nf) as [nf1|] eqn:Hd; cbn [mbind res_bind];
        [|discriminate].
      intros H. apply IH in H as [Hle _]. apply drop_shrinks in Hd.
      split; [lia|]. intros _. right. lia.
    + destruct (gt_truth v _) as [[|]|]; cbn [mbind res_bind];
        [apply IH|apply IH|discriminate].
Qed.

Lemma over_one_rows p d :
  NoDup (columns d) -> columns d !! p = Some "Cum Rel Abund" ->
  NoDup (index d) ->
  exists fresh,
    over_one d =
      Val (fresh,
           mkDF (columns d) (keep_through_first (over_threshold p) (rows d))).
Proof.
  intros Hnc Hp Hnd. unfold over_one, index at 1.
  exact (over_one_loop_scan p d [] (rows d) false Hnc Hp Hnd eq_refl).
Qed.

(** A truncated table is returned as it is, without a new object. *)
Lemma truncated_fixpoint p d d' :
  NoDup (columns d) -> columns d !! p = Some "Cum Rel Abund" ->
  NoDup (index d) ->
  truncated d = Val d' -> over_one d' = Val (false, d').
Proof.
  intros Hnc Hp Hnd. unfold truncated.
  destruct (over_one_rows p d Hnc Hp Hnd) as (fresh & ->). cbn.
  intros [= <-].
  set (rs' := keep_through_first (over_threshold p) (rows d)).
  assert (Hnd' : NoDup (index (mkDF (columns d) rs'))).
  { unfold index in *. cbn [rows].
    destruct (keep_through_first_prefix (over_threshold p) (rows d))
      as [rest Hrest]. fold rs' in Hrest.
    rewrite Hrest, map_app in Hnd. now apply NoDup_app in Hnd as [? _]. }
  destruct (over_one_rows p (mkDF (columns d) rs') Hnc Hp Hnd')
    as (fresh' & Hrun).
  cbn [rows columns] in Hrun. unfold rs' in Hrun at 2.
  rewrite keep_through_first_idem in Hrun. fold rs' in Hrun.
  destruct fresh'; [|exact Hrun]. exfalso.
  unfold over_one in Hrun. apply over_one_loop_fresh in Hrun as [_ H].
  destruct (H eq_refl) as [?|?]; [discriminate|lia].
Qed.

Lemma for_samples_same_objects (h : heap) rs ds acc :
  stored h rs ds ->
  Forall (fun d => over_one d = Val (false, d)) ds ->
  for_samples (rebound over_one) rs acc h = Val (acc ++ rs, h).
Proof.
  intros Hst. revert acc. induction Hst as [|r d rs ds Hr _ IH];
    intros acc Hds; cbn [for_samples].
  - now rewrite app_nil_r.
  - apply Forall_cons_1 in Hds as [Hd Hds].
    rewrite (bind_val _ _ h h r)
      by (rewrite (rebound_run _ h r d Hr); now rewrite Hd).
    rewrite IH by exact Hds. now rewrite <- app_assoc.
Qed.

(** X9. Truncation is idempotent.  Applied to what it returned,
    [remove_cumulative_abundance_over_one] returns the very same
    references and leaves the store as it is: no row is dropped and no
    new table is built. *)
Theorem truncation_idempotent (h : heap) (samples : list ref)
    (ds : list DataFrame) :
  NoDup samples ->
  stored h samples ds ->
  Forall (fun d => NoDup (index d) /\ NoDup (columns d) /\
                   "Cum Rel Abund" ∈ columns d) ds ->
  exists samples2 h',
    remove_cumulative_abundance_over_one samples h = Val (samples2, h') /\
    remove_cumulative_abundance_over_one samples2 h' = Val (samples2, h').
Proof.
  intros Hnd Hst Hds.
  destruct (mapM_total truncated
              (fun d d' => over_one d' = Val (false, d')) ds)
    as (ds' & HM & HR).
  { eapply Forall_impl; [exact Hds|]. cbn. intros d (Hi & Hc & Hin).
    apply list_elem_of_lookup_1 in Hin as [p Hp].
    destruct (truncated_spec p d Hc Hp Hi) as (d' & Ht & _).
    exists d'. split; [exact Ht|]. now apply (truncated_fixpoint p d). }
  pose proof (stage_spec _ _ over_one_ok samples ds h Hnd Hst) as Hstage.
  rewrite HM in Hstage. destruct Hstage as (rs' & h' & Hrun & Hst' & _).
  exists rs', h'. unfold remove_cumulative_abundance_over_one.
  split; [exact Hrun|].
  apply (for_samples_same_objects h' rs' ds' [] Hst').
  eapply Forall2_Forall_r; [exact HR|]. auto.
Qed.

Lemma truncation_idempotent_witness :
  exists samples2 h',
    remove_cumulative_abundance_over_one [0] [sample_A_cum]
      = Val (samples2, h') /\
    remove_cumulative_abundance_over_one samples2 h' = Val (samples2, h').
Proof.
  apply (truncation_idempotent [sample_A_cum] [0] [sample_A_cum]).
  - apply (bool_decide_unpack _). vm_compute. exact I.
  - repeat constructor.
  - apply Forall_cons_2; [|constructor].
    split; [|split]; apply (bool_decide_unpack _); vm_compute; exact I.
Defined.

(** ** What [run] leaves in the store *)

Lemma bind_inv {A B} (m : M A) (f : A -> M B) (h h' : heap) b :
  (m ≫= f) h = Val (b, h') ->
  exists a h1, m h = Val (a, h1) /\ f a h1 = Val (b, h').
Proof.
  unfold mbind, M_bind. destruct (m h) as [[a h1]|]; [eauto|discriminate].
Qed.

(** A per-sample stage run on objects at or above [base] leaves the
    objects below [base] alone and returns objects at or above it. *)
Lemma stage_above F body base rs ds (h h' : heap) rs' :
  body_ok F body ->
  NoDup rs -> stored h rs ds ->
  Forall (fun r => base <= r) rs -> base <= length h ->
  for_samples body rs [] h = Val (rs', h') ->
  (forall x, x < base -> h' !! x = h !! x) /\
  Forall (fun r => base <= r) rs' /\ base <= length h' /\
  NoDup rs' /\ exists ds', stored h' rs' ds'.
Proof.
  intros Hbody Hnd Hst Habove Hbase Hrun.
  pose proof (for_samples_spec F body Hbody rs ds h [] Hnd Hst) as H.
  destruct (mapM F ds) as [ds'|e]; [|congruence].
  destruct H as (rs1 & h1 & Hrun1 & Hst1 & Hnd1 & Hlen & Hor & Hframe).
  rewrite Hrun in Hrun1. cbn in Hrun1. injection Hrun1 as -> ->.
  rewrite Forall_forall in Habove.
  split; [|split; [|split; [lia|split; [exact Hnd1|eauto]]]].
  - intros x Hx. apply Hframe; [lia|].
    intros Hin. apply Habove in Hin. lia.
  - eapply Forall_impl; [exact Hor|]. cbn. intros r [Hin|Hge]; [auto|lia].
Qed.

(** X10. [run] works on tables of its own.  Every table that was in
    the store before the call is unchanged after it, and so is the
    table read from the input file, although two stages of the
    pipeline write tables in place. *)
Theorem run_keeps_existing_tables (sort_values : Series -> Series)
    (input : DataFrame) (h h' : heap) out :
  run sort_values input h = Val (out, h') ->
  (forall x d, h !! x = Some d -> h' !! x = Some d) /\
  h' !! length h = Some input.
Proof.
  unfold run. intros Hrun.
  apply bind_inv in Hrun as (r0 & h0 & Halloc & Hrun).
  injection Halloc as <- <-.
  set (h0 := h ++ [input]) in *. set (base := S (length h)).
  assert (Hlen0 : length h0 = base).
  { unfold h0, base. rewrite length_app. cbn. lia. }
  assert (Hr0 : h0 !! length h = Some input).
  { unfold h0. rewrite lookup_app_r by lia. now rewrite Nat.sub_diag. }
  apply bind_inv in Hrun as (ok & h0' & Hck & Hrun).
  rewrite (check_columns_run h0 _ input Hr0) in Hck.
  destruct (check_columns_loop input (columns input)) as [ok'|]; [|discriminate].
  injection Hck as -> <-. destruct ok; [|discriminate].
  apply bind_inv in Hrun as (r1 & h1 & Hrz & Hrun).
  pose proof (rebound_grows _ _ _ _ _ Hrz) as [Hlen1 Hsame1].
  pose proof (remove_zeros_ok h0 (length h) input Hr0) as Hok1.
  destruct (pruned input) as [d1|]; [|unfold remove_zeros in *; congruence].
  destruct Hok1 as (r1' & h1' & Hrz' & _ & Hr1 & _).
  rewrite Hrz in Hrz'. injection Hrz' as <- <-.
  apply bind_inv in Hrun as (rs2 & h2 & Hsb & Hrun).
  unfold sort_bins in Hsb. rewrite (bind_val _ _ h1 h1 d1) in Hsb
    by now apply deref_val.
  rewrite sort_bins_loop_spec in Hsb.
  destruct (mapM _ (columns d1)) as [fs|]; [|discriminate].
  cbn [app] in Hsb. injection Hsb as <- <-.
  assert (Hst2 : stored (h1 ++ fs) (seq (length h1) (length fs)) fs)
    by apply stored_seq.
  assert (Hab2 : Forall (fun r => base <= r) (seq (length h1) (length fs))).
  { apply Forall_forall. intros r Hr. apply list_elem_of_In, in_seq in Hr. lia. }
  assert (Hb2 : base <= length (h1 ++ fs)) by (rewrite length_app; lia).
  apply bind_inv in Hrun as (rs3 & h3 & Hcra & Hrun).
  destruct (stage_above _ _ base _ _ _ _ _ (in_place_ok add_cum_rel_abund)
              (NoDup_seq _ _) Hst2 Hab2 Hb2 Hcra)
    as (Hsame3 & Hab3 & Hb3 & Hnd3 & ds3 & Hst3).
  apply bind_inv in Hrun as (rs4 & h4 & Hoo & Hrun).
  destruct (stage_above _ _ base _ _ _ _ _ over_one_ok Hnd3 Hst3 Hab3 Hb3 Hoo)
    as (Hsame4 & Hab4 & Hb4 & Hnd4 & ds4 & Hst4).
  apply bind_inv in Hrun as (rs5 & h5 & Hcpt & Hrun).
  destruct (stage_above _ _ base _ _ _ _ _ (in_place_ok add_cum_prop_trfs)
              Hnd4 Hst4 Hab4 Hb4 Hcpt)
    as (Hsame5 & Hab5 & Hb5 & Hnd5 & ds5 & Hst5).
  apply bind_inv in Hrun as (plot & h6 & Hg & Hrun).
  unfold make_graph in Hg.
  rewrite (read_only_spec (fun cols => make_graph_loop cols []) h5 rs5 ds5 Hst5)
    in Hg.
  destruct (make_graph_loop ds5 []); [|discriminate]. injection Hg as _ <-.
  apply bind_inv in Hrun as (gini_df & h7 & Hgi & Hrun).
  unfold make_gini_file in Hgi.
  rewrite (read_only_spec make_gini_df h5 rs5 ds5 Hst5) in Hgi.
  destruct (make_gini_df ds5); [|discriminate]. injection Hgi as _ <-.
  injection Hrun as _ <-.
  assert (Hbelow : forall x, x < base -> h5 !! x = h0 !! x).
  { intros x Hx. rewrite Hsame5, Hsame4, Hsame3 by exact Hx.
    rewrite lookup_app_l by lia. apply Hsame1. lia. }
  split.
  - intros x d Hx. pose proof (lookup_lt_Some _ _ _ Hx) as Hlt.
    rewrite Hbelow by (unfold base; lia).
    unfold h0. now rewrite lookup_app_l by lia.
  - rewrite Hbelow by (unfold base; lia). exact Hr0.
Qed.

Lemma run_keeps_existing_tables_witness :
  exists out h',
    run stable_sort_values table_AB [table_trunc] = Val (out, h') /\
    (forall x d, [table_trunc] !! x = Some d -> h' !! x = Some d) /\
    h' !! length [table_trunc] = Some table_AB.
Proof.
  assert (exists out h',
            run stable_sort_values table_AB [table_trunc] = Val (out, h'))
    as (out & h' & Hrun) by (vm_compute; eauto).
  exists out, h'. split; [exact Hrun|].
  exact (run_keeps_existing_tables _ _ _ _ _ Hrun).
Defined.

(** ** Sample sizes in a run that returns *)

Lemma Forall_Forall2_r' {A B} (Q : A -> Prop) (P : A -> B -> Prop)
    (R : B -> Prop) l k :
  Forall Q l -> Forall2 P l k -> (forall a b, Q a -> P a b -> R b) ->
  Forall R k.
Proof.
  intros HQ HP HR. induction HP; inversion HQ; subst; constructor; eauto.
Qed.













Lemma index_len d d' : index d' = index d -> len d' = len d.
Proof.
  unfold index, len. intros H. apply (f_equal length) in H.
  now rewrite !length_map in H.
Qed.



(** ** The cumulative column as partial sums *)

Lemma cum_rel_abund_added_cells d d' :
  wf_df d -> cum_rel_abund_added d d' ->
  exists cum,
    length cum = len d /\ running_sum (rows d) cum /\ len d' = len d /\
    forall i r', rows d' !! i = Some r' ->
      exists r, rows d !! i = Some r /\
                cum !! i = Some (cell (length (columns d)) r').
Proof.
  intros Hwf (_ & cum & Hlen & Hrec & Hrows). exists cum.
  split; [exact Hlen|]. split; [exact Hrec|]. split.
  - unfold len in *. rewrite Hrows, length_zip_with. lia.
  - intros i r' Hi. rewrite Hrows in Hi.
    apply lookup_zip_with_Some in Hi as (r & c & -> & Hr & Hc).
    exists r. split; [exact Hr|]. rewrite Hc. f_equal.
    unfold cell. cbn [snd]. unfold wf_df in Hwf. rewrite Forall_forall in Hwf.
    rewrite <- (Hwf r) by (eapply list_elem_of_lookup_2, Hr).
    rewrite app_nth2 by lia. now rewrite Nat.sub_diag.
Qed.

Lemma column_cells_lookup p d i r :
  rows d !! i = Some r -> column_cells p d !! i = Some (cell p r).
Proof.
  intros Hr. unfold column_cells. change (map ?f ?l) with (f <$> l).
  now rewrite list_lookup_fmap, Hr.
Qed.

Lemma running_sum_partial rs cum d :
  rows d = rs -> running_sum rs cum ->
  forall i r c, rs !! i = Some r -> cum !! i = Some c ->
    (c == py_sum (take (S i) (column_cells 0 d)))%Q.
Proof.
  intros <- Hrec. induction i as [|j IH]; intros r c Hr Hc.
  - specialize (Hrec 0 r Hr). cbn in Hrec.
    rewrite (take_S_r _ 0 (cell 0 r)) by now apply column_cells_lookup.
    rewrite take_0. cbn [app].
    assert (c = cell 0 r) as -> by congruence.
    rewrite py_sum_cons. unfold py_sum. cbn. ring.
  - pose proof (Hrec (S j) r Hr) as (prev & Hprev & Hcur). cbn beta iota in *.
    assert (c = (cell 0 r + prev)%Q) as -> by congruence.
    destruct (lookup_lt_is_Some_2 (rows d) j) as [r0 Hr0];
      [apply lookup_lt_Some in Hr; lia|].
    rewrite (take_S_r _ (S j) (cell 0 r)) by now apply column_cells_lookup.
    rewrite py_sum_app, <- (IH r0 prev Hr0 Hprev).
    rewrite py_sum_cons. unfold py_sum at 1. cbn. ring.
Qed.

Lemma add_cum_rel_abund_partial_sums d :
  wf_df d -> columns d <> [] -> "Cum Rel Abund" ∉ columns d ->
  exists d', add_cum_rel_abund d = Val d' /\ partial_sums_added d d'.
Proof.
  intros Hwf Hc Hn.
  destruct (add_cum_rel_abund_spec d Hwf Hc Hn) as (d' & Hrun & Hadded).
  exists d'. split; [exact Hrun|].
  destruct (cum_rel_abund_added_cells d d' Hwf Hadded)
    as (cum & _ & Hrec & Hlen & Hcells).
  split; [exact Hlen|]. intros i r' Hi.
  destruct (Hcells i r' Hi) as (r & Hr & Hcum).
  exact (running_sum_partial (rows d) cum d eq_refl Hrec i r _ Hr Hcum).
Qed.

(** X12. The value that [calculate_cumulative_relative_abundance]
    writes at position [i] of "Cum Rel Abund" is the sum of the first
    [i + 1] abundances of the sample; the table keeps its number of
    rows. *)
Theorem cumulative_column_is_partial_sums (h : heap) (samples : list ref)
    (ds : list DataFrame) :
  NoDup samples ->
  stored h samples ds ->
  Forall (fun d => wf_df d /\ columns d <> [] /\
                   "Cum Rel Abund" ∉ columns d) ds ->
  exists h' ds',
    calculate_cumulative_relative_abundance samples h = Val (samples, h') /\
    stored h' samples ds' /\
    Forall2 partial_sums_added ds ds'.
Proof.
  intros Hnd Hst Hds.
  destruct (mapM_total add_cum_rel_abund partial_sums_added ds)
    as (ds' & HM & HR).
  { eapply Forall_impl; [exact Hds|]. cbn. intros d (Hwf & Hc & Hn).
    now apply add_cum_rel_abund_partial_sums. }
  pose proof (in_place_stage add_cum_rel_abund samples ds h [] Hst Hnd) as Hs.
  rewrite HM in Hs. destruct Hs as (h' & Hrun & Hst' & _).
  exists h', ds'. split; [exact Hrun|]. split; [exact Hst'|exact HR].
Qed.

Lemma cumulative_column_is_partial_sums_witness :
  exists h' ds',
    calculate_cumulative_relative_abundance [0] [sample_A_ranked]
      = Val ([0], h') /\
    stored h' [0] ds' /\
    Forall2 partial_sums_added [sample_A_ranked] ds'.
Proof.
  apply (cumulative_column_is_partial_sums [sample_A_ranked] [0]
           [sample_A_ranked]).
  - apply (bool_decide_unpack _). vm_compute. exact I.
  - repeat constructor.
  - apply Forall_cons_2; [|constructor]. split; [|split].
    + repeat constructor.
    + discriminate.
    + apply (bool_decide_unpack _). vm_compute. exact I.
Defined.

Lemma add_cum_rel_abund_non_decreasing d :
  wf_df d -> columns d <> [] -> "Cum Rel Abund" ∉ columns d ->
  nonnegative d ->
  exists d', add_cum_rel_abund d = Val d' /\ appended_non_decreasing d d'.
Proof.
  intros Hwf Hc Hn Hnn.
  destruct (add_cum_rel_abund_spec d Hwf Hc Hn) as (d' & Hrun & Hadded).
  exists d'. split; [exact Hrun|].
  destruct (cum_rel_abund_added_cells d d' Hwf Hadded)
    as (cum & _ & Hrec & _ & Hcells).
  intros i a b Ha Hb.
  destruct (Hcells i a Ha) as (ra & Hra & Hca).
  destruct (Hcells (S i) b Hb) as (rb & Hrb & Hcb).
  destruct (Hrec (S i) rb Hrb) as (prev & Hprev & Hcur).
  assert (prev = cell (length (columns d)) a) as <- by congruence.
  assert (cell (length (columns d)) b = (cell 0 rb + prev)%Q) as -> by congruence.
  assert (0 <= cell 0 rb)%Q; [|lra].
  unfold nonnegative in Hnn. rewrite Forall_forall in Hnn.
  assert (Hrbnn : Forall (fun x => 0 <= x)%Q (snd rb))
    by (apply Hnn; eapply list_elem_of_lookup_2, Hrb).
  unfold cell. destruct (snd rb) as [|x xs]; cbn; [lra|].
  now apply Forall_cons_1 in Hrbnn as [? _].
Qed.

(** X13. On samples with non-negative cells, the column "Cum Rel Abund"
    written by [calculate_cumulative_relative_abundance] never
    decreases from one row to the next. *)
Theorem cumulative_column_non_decreasing (h : heap) (samples : list ref)
    (ds : list DataFrame) :
  NoDup samples ->
  stored h samples ds ->
  Forall (fun d => wf_df d /\ columns d <> [] /\
                   ("Cum Rel Abund" ∉ columns d) /\ nonnegative d) ds ->
  exists h' ds',
    calculate_cumulative_relative_abundance samples h = Val (samples, h') /\
    stored h' samples ds' /\
    Forall2 appended_non_decreasing ds ds'.
Proof.
  intros Hnd Hst Hds.
  destruct (mapM_total add_cum_rel_abund appended_non_decreasing ds)
    as (ds' & HM & HR).
  { eapply Forall_impl; [exact Hds|]. cbn. intros d (Hwf & Hc & Hn & Hnn).
    now apply add_cum_rel_abund_non_decreasing. }
  pose proof (in_place_stage add_cum_rel_abund samples ds h [] Hst Hnd) as Hs.
  rewrite HM in Hs. destruct Hs as (h' & Hrun & Hst' & _).
  exists h', ds'. split; [exact Hrun|]. split; [exact Hst'|exact HR].
Qed.

Lemma cumulative_column_non_decreasing_witness :
  exists h' ds',
    calculate_cumulative_relative_abundance [0] [sample_A_ranked]
      = Val ([0], h') /\
    stored h' [0] ds' /\
    Forall2 appended_non_decreasing [sample_A_ranked] ds'.
Proof.
  apply (cumulative_column_non_decreasing [sample_A_ranked] [0]
           [sample_A_ranked]).
  - apply (bool_decide_unpack _). vm_compute. exact I.
  - repeat constructor.
  - apply Forall_cons_2; [|constructor]. split; [|split; [|split]].
    + repeat constructor.
    + discriminate.
    + apply (bool_decide_unpack _). vm_compute. exact I.
    + repeat constructor; lra.
Defined.

(** ** [make_graph] *)

Lemma select_present name d :
  name ∈ columns d -> exists v, select name d = Val v.
Proof.
  intros Hin. unfold select.
  destruct (positions name (columns d) 0) as [|p ps] eqn:Hpos; [|eauto].
  now apply positions_nil_absent in Hpos.
Qed.

Lemma select_absent name d : name ∉ columns d -> select name d = Raise KeyError.
Proof. intros Hn. unfold select. now rewrite positions_absent. Qed.

Lemma make_graph_loop_total ds :
  Forall (fun d => columns d <> [] /\ "Cum Prop TRFs" ∈ columns d /\
                   "Cum Rel Abund" ∈ columns d) ds ->
  forall plot0, exists plot,
    make_graph_loop ds plot0 = Val (plot0 ++ plot) /\
    Forall2 curve_of ds plot.
Proof.
  induction 1 as [|d ds (Hc & Hx & Hy) _ IH]; intros plot0.
  - exists []. cbn. rewrite app_nil_r. split; [reflexivity|constructor].
  - cbn [make_graph_loop].
    destruct (select_present _ d Hx) as [xs Hxs].
    destruct (select_present _ d Hy) as [ys Hys].
    destruct (columns d) as [|t tl] eqn:Ht; [congruence|].
    assert (Htitle : title_of d = Val t) by (unfold title_of; now rewrite Ht).
    rewrite Htitle, Hxs, Hys. cbn [mbind res_bind].
    destruct (IH (plot0 ++ [(t, xs, ys)])) as (plot & Hrun & HF).
    exists ((t, xs, ys) :: plot). rewrite Hrun, <- app_assoc.
    split; [reflexivity|]. constructor; [|exact HF].
    unfold curve_of. cbn. auto.
Qed.

(** X14. When every sample table has a first column and the columns
    "Cum Prop TRFs" and "Cum Rel Abund", [make_graph] returns without
    touching the store and plots one curve per sample, in the order of
    the samples: the label is the sample's first column name, the x
    values are "Cum Prop TRFs" and the y values "Cum Rel Abund". *)
Theorem make_graph_one_curve_per_sample (h : heap) (samples : list ref)
    (ds : list DataFrame) :
  stored h samples ds ->
  Forall (fun d => columns d <> [] /\ "Cum Prop TRFs" ∈ columns d /\
                   "Cum Rel Abund" ∈ columns d) ds ->
  exists plot,
    make_graph samples h = Val (plot, h) /\ Forall2 curve_of ds plot.
Proof.
  intros Hst Hds. unfold make_graph.
  rewrite (read_only_spec (fun cols => make_graph_loop cols []) h samples ds Hst).
  destruct (make_graph_loop_total ds Hds []) as (plot & Hrun & HF).
  cbn [app] in Hrun. rewrite Hrun. eauto.
Qed.

Lemma make_graph_one_curve_per_sample_witness :
  exists plot,
    (make_graph [0]
       [mkDF ["A"; "Cum Rel Abund"; "Cum Prop TRFs"] [("b1", [1; 1; 1]%Q)]]
     = Val (plot,
            [mkDF ["A"; "Cum Rel Abund"; "Cum Prop TRFs"] [("b1", [1; 1; 1]%Q)]]))
    /\
    Forall2 curve_of
      [mkDF ["A"; "Cum Rel Abund"; "Cum Prop TRFs"] [("b1", [1; 1; 1]%Q)]] plot.
Proof.
  apply (make_graph_one_curve_per_sample _ [0]).
  - repeat constructor.
  - apply Forall_cons_2; [|constructor]. split; [discriminate|].
    split; apply (bool_decide_unpack _); vm_compute; exact I.
Defined.

Lemma make_graph_loop_missing ds :
  Forall (fun d => columns d <> []) ds ->
  Exists (fun d => "Cum Prop TRFs" ∉ columns d \/
                   "Cum Rel Abund" ∉ columns d) ds ->
  forall plot0, make_graph_loop ds plot0 = Raise KeyError.
Proof.
  intros Hcols Hex. induction Hex as [d ds Hd|d ds _ IH]; intros plot0;
    apply Forall_cons_1 in Hcols as [Hc Hcols]; cbn [make_graph_loop];
    (assert (exists t, title_of d = Val t) as [t ->]
       by (unfold title_of; destruct (columns d); [congruence|eauto]));
    cbn [mbind res_bind].
  - destruct (decide ("Cum Prop TRFs" ∈ columns d)) as [Hx|Hx].
    + destruct (select_present _ d Hx) as [xs ->]. cbn [mbind res_bind].
      destruct Hd as [Hd|Hd]; [contradiction|].
      now rewrite (select_absent _ d Hd).
    + now rewrite (select_absent _ d Hx).
  - destruct (select "Cum Prop TRFs" d) as [xs|e] eqn:Hxs.
    2:{ unfold select in Hxs. destruct (positions _ _ _); now inversion Hxs. }
    cbn [mbind res_bind].
    destruct (select "Cum Rel Abund" d) as [ys|e] eqn:Hys.
    2:{ unfold select in Hys. destruct (positions _ _ _); now inversion Hys. }
    cbn [mbind res_bind]. now apply IH.
Qed.

(** X15. When every sample table has a first column and one of them
    lacks "Cum Prop TRFs" or "Cum Rel Abund", [make_graph] raises
    KeyError; so it does when called before the stages that add these
    columns. *)
Theorem make_graph_missing_column_raises (h : heap) (samples : list ref)
    (ds : list DataFrame) :
  stored h samples ds ->
  Forall (fun d => columns d <> []) ds ->
  Exists (fun d => "Cum Prop TRFs" ∉ columns d \/
                   "Cum Rel Abund" ∉ columns d) ds ->
  make_graph samples h = Raise KeyError.
Proof.
  intros Hst Hcols Hex. unfold make_graph.
  rewrite (read_only_spec (fun cols => make_graph_loop cols []) h samples ds Hst).
  now rewrite (make_graph_loop_missing ds Hcols Hex []).
Qed.

Lemma make_graph_missing_column_raises_witness :
  make_graph [0] [sample_A_cum] = Raise KeyError.
Proof.
  apply (make_graph_missing_column_raises [sample_A_cum] [0] [sample_A_cum]).
  - repeat constructor.
  - repeat constructor; discriminate.
  - apply Exists_cons_hd. left. apply (bool_decide_unpack _). vm_compute. exact I.
Defined.

(** ** [remove_zeros] without zero rows *)

Lemma remove_zeros_loop_nothing cols pre suf fresh :
  NoDup (map fst (pre ++ suf)) ->
  Forall (fun r : Row => Qeq_bool (py_sum (snd r)) 0 = false) suf ->
  remove_zeros_loop (map fst suf) fresh (mkDF cols (pre ++ suf))
  = Val (fresh, mkDF cols (pre ++ suf)).
Proof.
  revert pre. induction suf as [|r suf IH]; intros pre Hnd Hnz; [reflexivity|].
  apply Forall_cons_1 in Hnz as [Hr Hnz].
  cbn [map remove_zeros_loop]. unfold sum_loc_row. cbn [rows columns].
  destruct (rows_at_unique pre r suf Hnd) as [-> _].
  cbn [mbind res_bind]. rewrite Hr.
  specialize (IH (pre ++ [r])). rewrite <- !app_assoc in IH. cbn [app] in IH.
  now apply IH.
Qed.

(** X16. On a table with distinct bin labels in which no row sums to
    zero, [remove_zeros] returns the very reference it was given and
    leaves the store as it is: the result is the caller's table
    itself, not a copy. *)
Theorem remove_zeros_returns_same_table (h : heap) (df : ref) (d : DataFrame) :
  h !! df = Some d ->
  NoDup (index d) ->
  Forall (fun r : Row => ~ (py_sum (snd r) == 0)%Q) (rows d) ->
  remove_zeros df h = Val (df, h).
Proof.
  intros Hdf Hnd Hnz. unfold remove_zeros. rewrite (rebound_run _ h df d Hdf).
  destruct d as [cols rs]. unfold index in *. cbn [rows columns] in *.
  pose proof (remove_zeros_loop_nothing cols [] rs false Hnd) as H.
  cbn [app] in H. rewrite H; [reflexivity|].
  eapply Forall_impl; [exact Hnz|]. cbn. intros r Hr.
  destruct (Qeq_bool (py_sum (snd r)) 0) eqn:E; [|reflexivity].
  now apply Qeq_bool_iff in E.
Qed.

Lemma remove_zeros_returns_same_table_witness :
  remove_zeros 0 [table_AB] = Val (0, [table_AB]).
Proof.
  apply (remove_zeros_returns_same_table [table_AB] 0 table_AB).
  - reflexivity.
  - apply (bool_decide_unpack _). vm_compute. exact I.
  - repeat constructor; intros H; vm_compute in H; discriminate.
Defined.

(** ** Computing the rank proportion twice *)

Lemma set_cells_idem name cols v cells :
  set_cells name cols v (set_cells name cols v cells)
  = set_cells name cols v cells.
Proof.
  revert cells. induction cols as [|c cols IH]; intros [|x xs]; cbn; auto.
  rewrite IH. now destruct (str_eqb c name).
Qed.

Lemma set_cells_appended name cols v cells :
  length cells = length cols -> name ∉ cols ->
  set_cells name (cols ++ [name]) v (cells ++ [v]) = cells ++ [v].
Proof.
  revert cells. induction cols as [|c cols IH]; intros [|x xs] Hlen Hn;
    try discriminate; cbn.
  - unfold str_eqb. now rewrite bool_decide_eq_true_2.
  - apply not_elem_of_cons in Hn as [Hne Hn]. unfold str_eqb.
    rewrite bool_decide_eq_false_2 by congruence.
    f_equal. apply IH; [cbn in Hlen; lia|exact Hn].
Qed.

Lemma zip_with_fixed (f : Row -> Q -> Row) rs vals :
  length vals = length rs ->
  (forall i r v, rs !! i = Some r -> vals !! i = Some v -> f r v = r) ->
  zip_with f rs vals = rs.
Proof.
  revert vals. induction rs as [|r rs IH]; intros [|v vals] Hlen Hf;
    try discriminate; [reflexivity|]. cbn.
  rewrite (Hf 0 r v) by reflexivity. f_equal.
  apply IH; [cbn in Hlen; lia|]. intros i. apply (Hf (S i)).
Qed.

Lemma setitem_again name vals d d' :
  wf_df d -> setitem name vals d = Val d' -> setitem name vals d' = Val d'.
Proof.
  intros Hwf Hset. pose proof (setitem_length _ _ _ _ Hset) as Hlen.
  unfold setitem in Hset. rewrite Hlen, Nat.eqb_refl in Hset. cbn [negb] in Hset.
  unfold wf_df, len in *. rewrite Forall_forall in Hwf.
  destruct (positions name (columns d) 0) as [|p ps] eqn:Hpos;
    injection Hset as <-; unfold setitem, len; cbn [rows columns];
    rewrite length_zip_with, Hlen, Nat.min_id, Nat.eqb_refl; cbn [negb].
  - apply positions_nil_absent in Hpos.
    destruct (positions name (columns d ++ [name]) 0) as [|q qs] eqn:Hq.
    { apply positions_nil_absent in Hq. exfalso. apply Hq.
      apply elem_of_app. right. left. }
    do 2 f_equal. apply zip_with_fixed.
    + rewrite length_zip_with. lia.
    + intros i r v Hr Hv.
      apply lookup_zip_with_Some in Hr as (r0 & v0 & -> & Hr0 & Hv0).
      assert (v0 = v) as -> by congruence. cbn [fst snd]. f_equal.
      apply set_cells_appended; [|exact Hpos].
      apply Hwf. eapply list_elem_of_lookup_2, Hr0.
  - rewrite Hpos. do 2 f_equal. apply zip_with_fixed.
    + rewrite length_zip_with. lia.
    + intros i r v Hr Hv.
      apply lookup_zip_with_Some in Hr as (r0 & v0 & -> & Hr0 & Hv0).
      assert (v0 = v) as -> by congruence. cbn [fst snd]. f_equal.
      apply set_cells_idem.
Qed.

Lemma add_cum_prop_trfs_idem d d' :
  wf_df d -> add_cum_prop_trfs d = Val d' -> add_cum_prop_trfs d' = Val d'.
Proof.
  intros Hwf. unfold add_cum_prop_trfs.
  rewrite !cum_prop_trfs_loop_spec by lia. cbn [app mbind res_bind].
  intros Hset.
  destruct (setitem_keeps _ _ _ _ Hwf Hset) as (_ & Hidx & _).
  rewrite (index_len _ _ Hidx). now apply (setitem_again _ _ d).
Qed.

Lemma stored_same_lookup (h1 h2 : heap) rs ds i :
  stored h1 rs ds -> stored h2 rs ds -> i ∈ rs -> h2 !! i = h1 !! i.
Proof.
  intros H1. induction H1 as [|r d rs ds Hr _ IH]; intros H2 Hin.
  - now apply elem_of_nil in Hin.
  - inversion H2 as [|? ? ? ? Hr2 H2']; subst.
    apply elem_of_cons in Hin as [->|Hin]; [congruence|auto].
Qed.

(** X17. [calculate_cumulative_prop_trf] is idempotent on well-formed
    tables: a second call on the same samples overwrites the column
    with the same values, so the store is left exactly as the first
    call left it and no second column appears. *)
Theorem rank_proportion_stage_idempotent (h : heap) (samples : list ref)
    (ds : list DataFrame) :
  NoDup samples ->
  stored h samples ds ->
  Forall wf_df ds ->
  exists h',
    calculate_cumulative_prop_trf samples h = Val (samples, h') /\
    calculate_cumulative_prop_trf samples h' = Val (samples, h').
Proof.
  intros Hnd Hst Hwf.
  destruct (mapM_total add_cum_prop_trfs
              (fun d d' => add_cum_prop_trfs d' = Val d') ds)
    as (ds' & HM & HR).
  { eapply Forall_impl; [exact Hwf|]. cbn. intros d Hd.
    destruct (add_cum_prop_trfs_spec d Hd) as (d' & Hrun & _).
    exists d'. split; [exact Hrun|]. now apply (add_cum_prop_trfs_idem d). }
  unfold calculate_cumulative_prop_trf.
  pose proof (in_place_stage add_cum_prop_trfs samples ds h [] Hst Hnd) as H1.
  rewrite HM in H1. destruct H1 as (h' & Hrun1 & Hst1 & _).
  exists h'. split; [exact Hrun1|].
  pose proof (in_place_stage add_cum_prop_trfs samples ds' h' [] Hst1 Hnd) as H2.
  assert (HM' : mapM add_cum_prop_trfs ds' = Val ds').
  { clear -HR. induction HR as [|d d' ds ds' Hd _ IH]; [reflexivity|].
    cbn. rewrite Hd. cbn. now rewrite IH. }
  rewrite HM' in H2. destruct H2 as (h'' & Hrun2 & Hst2 & Hlen & Hframe).
  rewrite Hrun2. do 2 f_equal. apply list_eq. intros i.
  destruct (decide (i ∈ samples)) as [Hin|Hnotin]; [|now apply Hframe].
  exact (stored_same_lookup h' h'' samples ds' i Hst1 Hst2 Hin).
Qed.

Lemma rank_proportion_stage_idempotent_witness :
  exists h',
    calculate_cumulative_prop_trf [0] [sample_A_cum] = Val ([0], h') /\
    calculate_cumulative_prop_trf [0] h' = Val ([0], h').
Proof.
  apply (rank_proportion_stage_idempotent [sample_A_cum] [0] [sample_A_cum]).
  - apply (bool_decide_unpack _). vm_compute. exact I.
  - repeat constructor.
  - repeat constructor.
Defined.

(** ** What a returning run hands back *)

Lemma make_graph_loop_inv ds plot0 plot :
  make_graph_loop ds plot0 = Val plot ->
  exists curves, plot = plot0 ++ curves /\ Forall2 curve_of ds curves.
Proof.
  revert plot0. induction ds as [|d ds IH]; intros plot0; cbn [make_graph_loop].
  - intros [= <-]. exists []. rewrite app_nil_r. split; [reflexivity|constructor].
  - destruct (title_of d) as [t|] eqn:Ht; cbn [mbind res_bind]; [|discriminate].
    destruct (select "Cum Prop TRFs" d) as [xs|] eqn:Hx; cbn [mbind res_bind];
      [|discriminate].
    destruct (select "Cum Rel Abund" d) as [ys|] eqn:Hy; cbn [mbind res_bind];
      [|discriminate].
    intros Hrun. apply IH in Hrun as (curves & -> & HF).
    exists ((t, xs, ys) :: curves). rewrite <- app_assoc.
    split; [reflexivity|]. constructor; [|exact HF].
    unfold curve_of. cbn. auto.
Qed.

(** X18. A run that returns hands back exactly one table per sample
    column of the input, in the order of the columns, each with its
    sample's name as first column; and what it plots is one curve per
    returned table, in the same order, read from that table. *)
Theorem run_returns_one_table_per_sample (sort_values : Series -> Series)
    (input : DataFrame) (h : heap) dfs plot gini_df :
  run_output sort_values input h = Val (dfs, plot, gini_df) ->
  Forall2 (fun col df => title_of df = Val col) (columns input) dfs /\
  Forall2 curve_of dfs plot.
Proof.
  rewrite run_output_value. intros Hrun.
  apply run_value_inv in Hrun as (_ & ts & Hts & Hdfs & Hplot & _).
  split.
  - apply truncated_curves_frames in Hts. apply mapM_inv in Hdfs.
    eapply Forall2_compose; [|exact Hts|exact Hdfs].
    cbn. intros col t df [Hwf [tl Htl]] Hadd.
    destruct (add_cum_prop_trfs_spec t Hwf) as (df' & Hdf' & _ & _ & tl' & Htl').
    assert (df' = df) as -> by congruence.
    unfold title_of. now rewrite Htl', Htl.
  - apply make_graph_loop_inv in Hplot as (curves & -> & HF). exact HF.
Qed.

Lemma run_returns_one_table_per_sample_witness :
  exists dfs plot gini_df,
    run_output stable_sort_values table_AB [] = Val (dfs, plot, gini_df) /\
    Forall2 (fun col df => title_of df = Val col) (columns table_AB) dfs /\
    Forall2 curve_of dfs plot.
Proof.
  assert (exists dfs plot gini_df,
            run_output stable_sort_values table_AB [] =
              Val (dfs, plot, gini_df)) as (dfs & plot & gini_df & Hrun)
    by (vm_compute; eauto).
  exists dfs, plot, gini_df. split; [exact Hrun|].
  exact (run_returns_one_table_per_sample _ _ _ _ _ _ Hrun).
Defined.

(** ** Rank proportion of the truncated samples *)



(** ** The values the scorer works on *)

Lemma drop_has_label label d d' :
  drop label d = Val d' -> label ∈ map fst (rows d).
Proof.
  unfold drop. destruct (rows_at label (rows d)) as [|x xs] eqn:Hx;
    [discriminate|]. intros _.
  assert (Hin : x ∈ rows_at label (rows d)) by (rewrite Hx; left).
  unfold rows_at in Hin. apply list_elem_of_filter in Hin as [<- Hin].
  apply list_elem_of_fmap. now exists x.
Qed.

(** Once the first row over the threshold is found, a label that is
    no longer in the frame makes the loop fail. *)
Lemma over_one_loop_missing_label col labels fresh nf l fr nf' :
  l ∈ labels -> l ∉ map fst (rows nf) ->
  over_one_loop col labels true fresh nf <> Val (fr, nf').
Proof.
  revert fresh nf. induction labels as [|l0 labels IH]; intros fresh nf Hin Hnot.
  - now apply elem_of_nil in Hin.
  - cbn [over_one_loop].
    destruct (lookup_cell _ l0 col) as [v|]; cbn [mbind res_bind];
      [|discriminate].
    destruct (drop l0 nf) as [nf1|] eqn:Hd; cbn [mbind res_bind];
      [|discriminate].
    apply elem_of_cons in Hin as [->|Hin].
    + exfalso. apply Hnot. now apply (drop_has_label l0 nf nf1).
    + apply IH; [exact Hin|]. intros Hl. apply Hnot.
      apply list_elem_of_fmap in Hl as (r & -> & Hr).
      apply list_elem_of_fmap. exists r. split; [reflexivity|].
      now apply (proj2 (drop_keeps l0 nf nf1 Hd)).
Qed.

Lemma over_one_loop_found_rows col suf :
  forall pre fresh nf fr nf',
    rows nf = pre ++ suf ->
    (forall r, r ∈ pre -> fst r ∉ map fst suf) ->
    over_one_loop col (map fst suf) true fresh nf = Val (fr, nf') ->
    rows nf' = pre /\ columns nf' = columns nf.
Proof.
  induction suf as [|r suf IH]; intros pre fresh nf fr nf' Hrows Hpre Hrun.
  - cbn in Hrun. injection Hrun as _ <-. now rewrite Hrows, app_nil_r.
  - cbn [map over_one_loop] in Hrun.
    destruct (lookup_cell _ (fst r) col) as [v|]; cbn [mbind res_bind] in Hrun;
      [|discriminate].
    destruct (drop (fst r) nf) as [nf1|] eqn:Hd; cbn [mbind res_bind] in Hrun;
      [|discriminate].
    assert (Hnf1 : rows nf1 = pre ++ filter (fun x : Row => fst x <> fst r) suf
                   /\ columns nf1 = columns nf).
    { unfold drop in Hd. destruct (rows_at (fst r) (rows nf)); [discriminate|].
      injection Hd as <-. cbn [rows columns]. split; [|reflexivity].
      rewrite Hrows, filter_app, filter_cons_False by tauto.
      f_equal. apply filter_all. intros x Hx Heq.
      apply (Hpre x Hx). rewrite Heq. left. }
    destruct Hnf1 as [Hrows1 Hcols1].
    destruct (decide (fst r ∈ map fst suf)) as [Hdup|Hnodup].
    + exfalso. apply (over_one_loop_missing_label _ _ _ _ (fst r) _ _ Hdup)
        in Hrun; [exact Hrun|].
      rewrite Hrows1, map_app. intros Hin.
      apply elem_of_app in Hin as [Hin|Hin].
      * apply list_elem_of_fmap in Hin as (x & Heq & Hx).
        apply (Hpre x Hx). rewrite <- Heq. left.
      * apply list_elem_of_fmap in Hin as (x & Heq & Hx).
        apply list_elem_of_filter in Hx as [Hne _]. congruence.
    + rewrite filter_all in Hrows1.
      2:{ intros x Hx Heq. apply Hnodup. rewrite <- Heq.
          apply list_elem_of_fmap. now exists x. }
      destruct (IH pre true nf1 fr nf' Hrows1) as [Hr Hc]; [|exact Hrun|].
      * intros x Hx Hin. apply (Hpre x Hx). now right.
      * split; [exact Hr|congruence].
Qed.

Lemma rows_at_nil_absent label rs :
  rows_at label rs = [] -> label ∉ map fst rs.
Proof.
  intros Hnil Hin. apply list_elem_of_fmap in Hin as (r & -> & Hr).
  unfold rows_at in Hnil.
  exact (filter_nil_not_elem_of _ rs r Hnil eq_refl Hr).
Qed.

Lemma over_one_loop_prefix col suf :
  forall pre fresh fr nf',
    rows col = pre ++ suf ->
    (forall r, r ∈ pre -> fst r ∉ map fst suf) ->
    over_one_loop col (map fst suf) false fresh col = Val (fr, nf') ->
    (exists m, rows nf' = take m (rows col)) /\ columns nf' = columns col.
Proof.
  induction suf as [|r suf IH]; intros pre fresh fr nf' Hrows Hpre Hrun.
  - cbn in Hrun. injection Hrun as _ <-. split; [|reflexivity].
    exists (length (rows col)). now rewrite take_ge.
  - cbn [map over_one_loop] in Hrun.
    destruct (lookup_cell _ (fst r) col) as [v|] eqn:Hv;
      cbn [mbind res_bind] in Hrun; [|discriminate].
    destruct (gt_truth v _) as [over|] eqn:Hover;
      cbn [mbind res_bind] in Hrun; [|discriminate].
    assert (Hsuf : fst r ∉ map fst suf).
    { destruct v as [q|]; [|discriminate]. unfold lookup_cell in Hv.
      destruct (positions _ (columns col) 0) as [|p [|p' ps]];
        try discriminate.
      2:{ destruct (str_eqb _ _); discriminate. }
      rewrite Hrows, rows_at_app in Hv. change (r :: suf) with ([r] ++ suf) in Hv.
      rewrite rows_at_app in Hv. unfold rows_at at 2 in Hv.
      rewrite filter_cons_True in Hv by reflexivity. cbn [filter list_filter app] in Hv.
      destruct (rows_at (fst r) pre) as [|x xs]; cbn [app] in Hv.
      - destruct (rows_at (fst r) suf) as [|y ys] eqn:Hy; [|discriminate].
        now apply rows_at_nil_absent.
      - destruct xs; cbn in Hv; discriminate. }
    assert (Hpre' : forall x, x ∈ pre ++ [r] -> fst x ∉ map fst suf).
    { intros x Hx. apply elem_of_app in Hx as [Hx|Hx].
      - intros Hin. apply (Hpre x Hx). now right.
      - apply list_elem_of_singleton in Hx as ->. exact Hsuf. }
    assert (Hrows' : rows col = (pre ++ [r]) ++ suf)
      by now rewrite <- app_assoc.
    destruct over.
    + destruct (over_one_loop_found_rows col suf (pre ++ [r]) fresh col fr nf'
                  Hrows' Hpre' Hrun) as [Hr Hc].
      split; [|exact Hc]. exists (length (pre ++ [r])).
      now rewrite Hrows', take_app_length.
    + exact (IH (pre ++ [r]) fresh fr nf' Hrows' Hpre' Hrun).
Qed.

(** Whenever the truncation returns, its result holds the leading rows
    of the table it was given. *)
Lemma truncated_prefix c t :
  truncated c = Val t ->
  rows t = take (len t) (rows c) /\ columns t = columns c.
Proof.
  unfold truncated, over_one, index.
  destruct (over_one_loop _ _ _ _ _) as [[fr nf]|] eqn:Hloop; cbn;
    [|discriminate]. intros [= <-].
  destruct (over_one_loop_prefix c (rows c) [] false fr nf eq_refl)
    as [[m Hm] Hc]; [|exact Hloop|].
  { intros r Hr. now apply elem_of_nil in Hr. }
  split; [|exact Hc]. unfold len. rewrite Hm, length_take.
  destruct (Nat.le_gt_cases m (length (rows c))) as [Hle|Hgt].
  - now rewrite Nat.min_l.
  - rewrite Nat.min_r by lia. now rewrite !take_ge by lia.
Qed.

Lemma map_zip_with_keep {B} (g : Row -> B) (f : Row -> Q -> Row)
    (rs : list Row) (vals : list Q) :
  (forall r v, r ∈ rs -> g (f r v) = g r) -> length rs <= length vals ->
  map g (zip_with f rs vals) = map g rs.
Proof.
  revert vals. induction rs as [|r rs IH]; intros [|v vals] Hg Hlen;
    cbn in *; try reflexivity; try lia.
  rewrite Hg by left. f_equal. apply IH; [|lia].
  intros x w Hx. apply Hg. now right.
Qed.

(** Appending a column leaves the first column, the labels and the
    other names as they are. *)
Lemma setitem_new_column name vals d d' :
  wf_df d -> columns d <> [] -> name ∉ columns d ->
  setitem name vals d = Val d' ->
  column_cells 0 d' = column_cells 0 d /\ index d' = index d /\
  columns d' = columns d ++ [name] /\ wf_df d'.
Proof.
  intros Hwf Hc Hn Hset. pose proof (setitem_length _ _ _ _ Hset) as Hlen.
  destruct (setitem_keeps _ _ _ _ Hwf Hset) as (Hwf' & Hidx & _).
  rewrite (setitem_append name vals d Hlen Hn) in Hset. injection Hset as <-.
  split; [|auto]. unfold column_cells. cbn [rows].
  apply map_zip_with_keep; [|unfold len in Hlen; lia].
  intros r v Hr. unfold cell. cbn [snd].
  unfold wf_df in Hwf. rewrite Forall_forall in Hwf. specialize (Hwf r Hr).
  destruct (snd r) as [|x xs]; [|reflexivity].
  destruct (columns d); [congruence|discriminate].
Qed.

Lemma score_on_values df : score df = score_values (column_cells 0 df).
Proof.
  unfold score, score_values, column_cells, len. now rewrite length_map.
Qed.

(** One sample through accumulation, truncation and rank proportion:
    what is returned holds the leading ranked bins and abundances. *)
Lemma sample_keeps_ranks f c t df col :
  wf_df f -> columns f = [col] ->
  col <> "Cum Rel Abund" -> col <> "Cum Prop TRFs" ->
  add_cum_rel_abund f = Val c -> truncated c = Val t ->
  add_cum_prop_trfs t = Val df ->
  title_of f = Val col /\
  index df = take (len df) (index f) /\
  column_cells 0 df = take (len df) (column_cells 0 f).
Proof.
  intros Hwf Hcols Hn1 Hn2 Hc Ht Hdf.
  split; [unfold title_of; now rewrite Hcols|].
  unfold add_cum_rel_abund in Hc.
  destruct (cum_rel_abund_loop _ _ _) as [cum|]; cbn in Hc; [|discriminate].
  assert (Hne : columns f <> []) by (rewrite Hcols; discriminate).
  assert (Hnew : "Cum Rel Abund" ∉ columns f).
  { rewrite Hcols. intros H. apply list_elem_of_singleton in H. congruence. }
  destruct (setitem_new_column "Cum Rel Abund" cum f c Hwf Hne Hnew Hc)
    as (Hc0 & Hci & Hcc & Hcwf).
  destruct (truncated_prefix c t Ht) as [Htr Htc].
  destruct (truncated_keeps c t Hcwf Ht) as [Htwf _].
  unfold add_cum_prop_trfs in Hdf.
  rewrite cum_prop_trfs_loop_spec in Hdf by lia. cbn [app mbind res_bind] in Hdf.
  assert (Hne' : columns t <> []) by (rewrite Htc, Hcc, Hcols; discriminate).
  assert (Hnew' : "Cum Prop TRFs" ∉ columns t).
  { rewrite Htc, Hcc, Hcols. cbn. intros H.
    apply elem_of_cons in H as [H|H]; [congruence|].
    apply list_elem_of_singleton in H. discriminate. }
  destruct (setitem_new_column "Cum Prop TRFs" _ t df Htwf Hne' Hnew' Hdf)
    as (Hd0 & Hdi & _ & _).
  rewrite (index_len _ _ Hdi). split.
  - rewrite Hdi. unfold index. rewrite Htr at 1.
    change (map fst ?l) with (fst <$> l). rewrite fmap_take.
    change (fst <$> rows c) with (index c). now rewrite Hci.
  - rewrite Hd0. unfold column_cells. rewrite Htr at 1.
    change (map ?g ?l) with (g <$> l). rewrite fmap_take.
    change (cell 0 <$> rows c) with (column_cells 0 c). now rewrite Hc0.
Qed.

Lemma Forall2_chain {A} (P0 : A -> Prop) (R1 R2 R3 R : A -> A -> Prop)
    (l1 l2 l3 l4 : list A) :
  (forall a b c d, P0 a -> R1 a b -> R2 b c -> R3 c d -> R a d) ->
  Forall P0 l1 -> Forall2 R1 l1 l2 -> Forall2 R2 l2 l3 -> Forall2 R3 l3 l4 ->
  Forall2 R l1 l4.
Proof.
  intros HR HP H1. revert l3 l4.
  induction H1 as [|a b l1 l2 Hab _ IH]; intros l3 l4 H2 H3;
    inversion H2; subst; inversion H3; subst; [constructor|].
  apply Forall_cons_1 in HP as [Ha HP]. constructor; eauto.
Qed.

Lemma Forall2_and_r {A B} (R : A -> B -> Prop) (P : B -> Prop) l k :
  Forall2 R l k -> Forall P k -> Forall2 (fun a b => R a b /\ P b) l k.
Proof.
  induction 1 as [|a b l k Hab _ IH]; intros HP; [constructor|].
  apply Forall_cons_1 in HP as [Hb HP]. constructor; auto.
Qed.

(** C1, as the program has it.  When no sample is called "Cum Rel Abund"
    or "Cum Prop TRFs", a run that returns scores each sample on what
    the truncation left of it: with [m] the number of rows of the
    sample after truncation, the Gini coefficient is that of the first
    [m] ranked abundances of the sample, and the [n] reported and used
    in the correction is [m]. *)
Theorem gini_scored_on_truncated_tables (sort_values : Series -> Series)
    (input : DataFrame) (h : heap) dfs plot gini_df :
  "Cum Rel Abund" ∉ columns input ->
  "Cum Prop TRFs" ∉ columns input ->
  run_output sort_values input h = Val (dfs, plot, gini_df) ->
  exists d fs ts,
    pruned input = Val d /\
    ranked sort_values d = Val fs /\
    truncated_curves sort_values input = Val ts /\
    Forall2 (scored_on_kept_ranks gini_df) fs dfs /\
    Forall2 (scored_on_truncated gini_df) ts dfs.
Proof.
  intros Hn1 Hn2. rewrite run_output_value. intros Hrun.
  apply run_value_inv in Hrun as (Hck & ts & Hts & Hdfs & _ & Hgini).
  apply check_columns_NoDup in Hck.
  pose proof (truncated_curves_frames _ _ _ Hts) as Hframes.
  pose proof Hts as Hts0. unfold truncated_curves in Hts0.
  destruct (pruned input) as [d|] eqn:Hp; cbn in Hts0; [|discriminate].
  destruct (ranked sort_values d) as [fs|] eqn:Hr; cbn in Hts0; [|discriminate].
  destruct (mapM add_cum_rel_abund fs) as [cs|] eqn:Hc; cbn in Hts0;
    [|discriminate].
  exists d, fs, ts. split; [reflexivity|]. split; [exact Hr|].
  split; [exact Hts|].
  apply mapM_inv in Hdfs, Hts0, Hc.
  assert (Hfinal : Forall2 (fun col df => title_of df = Val col)
                     (columns input) dfs).
  { eapply Forall2_compose; [|exact Hframes|exact Hdfs].
    cbn. intros col t df [Hwf [tl Htl]] Hadd.
    destruct (add_cum_prop_trfs_spec t Hwf) as (df' & Hdf' & _ & _ & tl' & Htl').
    assert (df' = df) as -> by congruence.
    unfold title_of. now rewrite Htl', Htl. }
  assert (Hscored : Forall (fun df => exists title g,
            title_of df = Val title /\ score df = Val g /\
            (title, g) ∈ gini_df) dfs).
  { apply (make_gini_df_spec dfs (columns input)); auto.
    clear -Hfinal. induction Hfinal; constructor; auto. }
  split.
  - assert (Hfs : Forall (fun f => wf_df f /\ exists col,
                     columns f = [col] /\ col <> "Cum Rel Abund" /\
                     col <> "Cum Prop TRFs") fs).
    { apply pruned_columns in Hp. apply ranked_frames in Hr. rewrite Hp in Hr.
      eapply (Forall_Forall2_r' (fun col => col ∈ columns input));
        [|exact Hr|].
      - apply Forall_forall. auto.
      - cbn. intros col f Hin [Hwf Hcols]. split; [exact Hwf|].
        exists col. split; [exact Hcols|]. split; intros ->; contradiction. }
    assert (Hkept : Forall2 (fun f df =>
              exists col, title_of f = Val col /\ title_of df = Val col /\
                index df = take (len df) (index f) /\
                column_cells 0 df = take (len df) (column_cells 0 f)) fs dfs).
    { eapply (Forall2_chain _ _ _ _ _ fs cs ts dfs);
        [|exact Hfs|exact Hc|exact Hts0|exact Hdfs].
      cbn. intros f c t df (Hwf & col & Hcols & Hc1 & Hc2) Hfc Hct Htdf.
      destruct (sample_keeps_ranks f c t df col Hwf Hcols Hc1 Hc2 Hfc Hct Htdf)
        as (Htitle & Hidx & Hcol0).
      exists col. split; [exact Htitle|]. split; [|auto].
      destruct (add_cum_rel_abund_keeps f c Hwf Hfc) as (Hcwf & _ & tl & Htl).
      destruct (truncated_keeps c t Hcwf Hct) as [Htwf Htc].
      destruct (add_cum_prop_trfs_spec t Htwf)
        as (df' & Hdf' & _ & _ & tl' & Htl').
      assert (df' = df) as -> by congruence.
      unfold title_of. now rewrite Htl', Htc, Htl, Hcols. }
    eapply Forall2_impl;
      [exact (Forall2_and_r _ _ _ _ Hkept Hscored)|].
    cbn. intros f df [(col & Hf & Hdf & Hidx & Hcol0) (title & g & Ht & Hs & Hin)].
    assert (title = col) as -> by congruence.
    exists col, g. split; [exact Hf|]. split; [exact Hidx|].
    split; [|exact Hin]. now rewrite <- Hcol0, <- score_on_values.
  - assert (Hwf : Forall wf_df ts).
    { eapply Forall2_Forall_r; [exact Hframes|]. cbn. tauto. }
    clear -Hdfs Hwf Hscored.
    induction Hdfs as [|t df ts dfs Ht _ IH]; [constructor|].
    inversion Hwf; subst. inversion Hscored; subst.
    constructor; [|auto].
    split; [|assumption].
    destruct (add_cum_prop_trfs_spec t) as (df' & Hdf' & [Hidx _] & _);
      [assumption|].
    congruence.
Qed.

Lemma gini_scored_on_truncated_tables_witness :
  exists dfs plot gini_df d fs ts,
    run_output stable_sort_values table_trunc [] = Val (dfs, plot, gini_df) /\
    pruned table_trunc = Val d /\
    ranked stable_sort_values d = Val fs /\
    truncated_curves stable_sort_values table_trunc = Val ts /\
    Forall2 (scored_on_kept_ranks gini_df) fs dfs /\
    Forall2 (scored_on_truncated gini_df) ts dfs.
Proof.
  assert (exists dfs plot gini_df,
            run_output stable_sort_values table_trunc [] =
              Val (dfs, plot, gini_df)) as (dfs & plot & gini_df & Hrun)
    by (vm_compute; eauto).
  exists dfs, plot, gini_df.
  destruct (gini_scored_on_truncated_tables stable_sort_values table_trunc []
              dfs plot gini_df) as (d & fs & ts & H);
    [apply (bool_decide_unpack _); vm_compute; exact I
    |apply (bool_decide_unpack _); vm_compute; exact I
    |exact Hrun|].
  exists d, fs, ts. tauto.
Defined.

(** X20. A sample called "Cum Prop TRFs" is not scored on its
    abundances: the rank-proportion stage overwrites the abundance
    column of such a sample, so the run returns, but the Gini row of
    that sample is the one of the rank proportions [1/2, 1] (raw
    coefficient 1/6) and not the one of the ranked abundances
    [0.6, 0.4] (raw coefficient 1/10). *)
Theorem sample_named_cum_prop_scored_on_proportions :
  exists dfs plot g d fs,
    run_output stable_sort_values table_named_cum_prop []
      = Val (dfs, plot, [("Cum Prop TRFs", g)]) /\
    Gini g = calculate_gini [rank_proportion 2 0; rank_proportion 2 1] /\
    pruned table_named_cum_prop = Val d /\
    ranked stable_sort_values d = Val fs /\
    ~ Forall2 (scored_on_kept_ranks [("Cum Prop TRFs", g)]) fs dfs.
Proof.
  do 5 eexists.
  split; [vm_compute; reflexivity|].
  split; [vm_compute; reflexivity|].
  split; [vm_compute; reflexivity|].
  split; [vm_compute; reflexivity|].
  intros H. apply Forall2_cons_1 in H as [(title & g & _ & _ & Hg & Hin) _].
  apply list_elem_of_singleton in Hin. injection Hin as _ ->.
  vm_compute in Hg. discriminate Hg.
Qed.
